(** * Event aggregator: ingestion and deduplication core

    A shallow embedding of [src/dedup_store.py] (class [DeduplicationStore])
    and [src/aggregator.py] (class [EventAggregator]), with the properties of
    the deduplication core stated and proved over it.

    Layers, leaf first:
    - [Sqlite]: the part of a [sqlite3] connection the store relies on
      (one table [processed_events] with primary key [(topic, event_id)],
      implicit transactions, commit, close);
    - [DeduplicationStore]: the store methods, one definition per method;
    - [EventAggregator]: counters, queue, [publish], [_process_event],
      [get_stats], [get_events], [start], [stop];
    - [Interleaving]: the cooperative schedule of publish calls and workers,
      one atomic step per stretch of code between two suspension points. *)

From Stdlib Require Import ZArith Lia.
From stdpp Require Import base option list gmap strings sorting.

Local Open Scope Z_scope.

(** ** Outcomes and the state-and-exception monad

    A Python call either returns a value or raises; in both cases the
    mutations made so far stay. *)

Inductive exn : Type :=
  | IntegrityError      (* sqlite3.IntegrityError: constraint violated *)
  | ProgrammingError    (* sqlite3.ProgrammingError: closed connection *)
  | OperationalError.   (* sqlite3.OperationalError: no such table *)

Global Instance exn_eq_dec : EqDecision exn.
Proof. solve_decision. Defined.

Inductive outcome (A : Type) : Type :=
  | Return (a : A)
  | Raise (e : exn).
Arguments Return {A} a.
Arguments Raise {A} e.

Definition M (Σ A : Type) : Type := Σ → outcome A * Σ.

Definition ret {Σ A} (a : A) : M Σ A := λ σ, (Return a, σ).
Definition raise {Σ A} (e : exn) : M Σ A := λ σ, (Raise e, σ).
Definition bind {Σ A B} (m : M Σ A) (k : A → M Σ B) : M Σ B :=
  λ σ, match m σ with
       | (Return a, σ') => k a σ'
       | (Raise e, σ') => (Raise e, σ')
       end.
Definition get {Σ} : M Σ Σ := λ σ, (Return σ, σ).
Definition modify {Σ} (f : Σ → Σ) : M Σ unit := λ σ, (Return tt, f σ).

(** [try m except e: h] *)
Definition try_except {Σ A} (m : M Σ A) (e : exn) (h : M Σ A) : M Σ A :=
  λ σ, match m σ with
       | (Return a, σ') => (Return a, σ')
       | (Raise e', σ') => if decide (e' = e) then h σ' else (Raise e', σ')
       end.

(** Run [m] and turn what it raises into [on_raise]. *)
Definition settle {Σ A} (m : M Σ A) (on_raise : exn → Σ → A) : Σ → A * Σ :=
  λ σ, match m σ with
       | (Return a, σ') => (a, σ')
       | (Raise e, σ') => (on_raise e σ', σ')
       end.

Declare Scope monad_scope.
Delimit Scope monad_scope with monad.
Notation "'let*' x ':=' m 'in' k" := (bind m (λ x, k))
  (at level 10, x pattern, m at level 200, k at level 200) : monad_scope.
Notation "m ';>' k" := (bind m (λ _, k))
  (at level 100, right associativity) : monad_scope.

(** ** The database: one table, [processed_events] *)

(** A row as the cursor returns it:
    [(topic, event_id, timestamp, processed_at)], all TEXT. *)
Definition row : Type := string * string * string * string.

Definition row_topic (r : row) : string := r.1.1.1.
Definition row_event_id (r : row) : string := r.1.1.2.
Definition row_timestamp (r : row) : string := r.1.2.
Definition row_processed_at (r : row) : string := r.2.

(** The rows of the table, in insertion (rowid) order. *)
Definition table : Type := list row.

(** The persisted locations: database files by path. A path that is
    absent from the map is a file without the [processed_events] table. *)
Abbreviation Disk := (gmap string table).

Module Sqlite.

(** What a connection is connected to. [":memory:"] and the empty path
    open a private database that no other connection can see and that
    goes away when the connection is closed. *)
Inductive target : Type :=
  | File (path : string)
  | Private (content : option table).

Record Connection : Type := mkConnection {
  closed : bool;
  database : target;
  (** the uncommitted working copy of the table, when a transaction is open *)
  txn : option table
}.

Definition is_private (path : string) : bool :=
  bool_decide (path = ":memory:") || bool_decide (path = "").

(** [sqlite3.connect(path, check_same_thread=False)] *)
Definition connect (path : string) : Connection :=
  {| closed := false;
     database := if is_private path then Private None else File path;
     txn := None |}.

(** The committed table, [None] when it does not exist. *)
Definition committed (c : Connection) (d : Disk) : option table :=
  match database c with
  | File p => d !! p
  | Private t => t
  end.

(** The table as statements on this connection see it. *)
Definition view (c : Connection) (d : Disk) : option table :=
  match txn c with
  | Some t => Some t
  | None => committed c d
  end.

Definition write_committed (c : Connection) (d : Disk) (t : table)
  : Connection * Disk :=
  match database c with
  | File p => (c, <[p := t]> d)
  | Private _ =>
      ({| closed := closed c; database := Private (Some t); txn := txn c |}, d)
  end.

Definition set_txn (c : Connection) (t : option table) : Connection :=
  {| closed := closed c; database := database c; txn := t |}.

Abbreviation St := (Connection * Disk)%type.

(** Every statement on a closed connection raises [ProgrammingError]. *)
Definition check_open : M St unit :=
  λ σ, if closed σ.1 then (Raise ProgrammingError, σ) else (Return tt, σ).

(** The table a statement reads; [OperationalError] when it is missing. *)
Definition read_table : M St table :=
  λ σ, match view σ.1 σ.2 with
       | Some t => (Return t, σ)
       | None => (Raise OperationalError, σ)
       end.

(** [CREATE TABLE IF NOT EXISTS processed_events (... PRIMARY KEY (topic,
    event_id))]: data definition opens no transaction. *)
Definition execute_create_table : M St unit :=
  (check_open ;>
   λ σ, match view σ.1 σ.2 with
        | Some _ => (Return tt, σ)
        | None => (Return tt, write_committed σ.1 σ.2 [])
        end)%monad.

(** [CREATE INDEX IF NOT EXISTS idx_topic ON processed_events(topic)]:
    no effect on the rows. *)
Definition execute_create_index : M St unit :=
  (check_open ;> let* _ := read_table in ret tt)%monad.

(** The primary key [(topic, event_id)] is taken. *)
Definition pk_taken (topic event_id : string) (t : table) : bool :=
  bool_decide (Exists (λ r, row_topic r = topic ∧ row_event_id r = event_id) t).

(** An [INSERT], [DELETE] outside a transaction first begins one. *)
Definition begin_if_needed : M St table :=
  (let* t := read_table in
   modify (λ σ : St, (set_txn σ.1 (Some t), σ.2)) ;>
   ret t)%monad.

(** [INSERT INTO processed_events (topic, event_id, timestamp,
    processed_at) VALUES (?, ?, ?, ?)]. A taken primary key aborts the
    statement with [IntegrityError]; the transaction stays open and the
    table is as before the statement. *)
Definition execute_insert (r : row) : M St unit :=
  (check_open ;>
   let* t := begin_if_needed in
   if pk_taken (row_topic r) (row_event_id r) t
   then raise IntegrityError
   else modify (λ σ : St, (set_txn σ.1 (Some (t ++ [r])), σ.2)))%monad.

(** [DELETE FROM processed_events] *)
Definition execute_delete_all : M St unit :=
  (check_open ;>
   let* _ := begin_if_needed in
   modify (λ σ : St, (set_txn σ.1 (Some []), σ.2)))%monad.

(** [conn.commit()] *)
Definition commit : M St unit :=
  (check_open ;>
   λ σ, match txn σ.1 with
        | None => (Return tt, σ)
        | Some t =>
            let '(c, d) := write_committed σ.1 σ.2 t in
            (Return tt, (set_txn c None, d))
        end)%monad.

(** [conn.close()]: an open transaction is rolled back, a private
    database is dropped; closing a closed connection does nothing. *)
Definition close : M St unit :=
  λ σ, if closed σ.1 then (Return tt, σ)
       else (Return tt,
             ({| closed := true;
                 database := match database σ.1 with
                             | File p => File p
                             | Private _ => Private None
                             end;
                 txn := None |}, σ.2)).

(** [SELECT ... FROM processed_events WHERE ...]: the matching rows, in
    rowid order. *)
Definition execute_select (where_ : row → bool) : M St (list row) :=
  (check_open ;>
   let* t := read_table in
   ret (filter (λ r, where_ r) t))%monad.

(** TEXT values compare bytewise. *)
Definition text_le (a b : string) : Prop := String.leb a b.

(** [ORDER BY processed_at DESC]: [r1] may come before [r2]. *)
Definition processed_at_desc (r1 r2 : row) : Prop :=
  text_le (row_processed_at r2) (row_processed_at r1).

Global Instance processed_at_desc_dec : RelDecision processed_at_desc.
Proof. intros r1 r2. unfold processed_at_desc, text_le. apply _. Defined.

(** [SELECT ... FROM processed_events WHERE ... ORDER BY processed_at DESC].
    The order among rows of equal [processed_at] is the sort's choice. *)
Definition execute_select_order_by_processed_at_desc (where_ : row → bool)
  : M St (list row) :=
  (let* rows := execute_select where_ in
   ret (merge_sort processed_at_desc rows))%monad.

(** [conn.rollback()] *)
Definition rollback : M St unit :=
  (check_open ;>
   modify (λ σ : St, (set_txn σ.1 None, σ.2)))%monad.

(** [with conn: body]: commit when the body returns, roll back and raise
    again when it raises. *)
Definition with_connection {A} (body : M St A) : M St A :=
  λ σ, match body σ with
       | (Return a, σ') => (commit ;> ret a)%monad σ'
       | (Raise e, σ') => (rollback ;> raise e)%monad σ'
       end.

End Sqlite.

(** ** [DeduplicationStore] ([src/dedup_store.py]) *)

Module DeduplicationStore.

(** The instance: [self.db_path] and [self.conn]. [self.lock] is held for
    the whole body of every [_sync_*] method, so each such body is one
    atomic transition of the store. *)
Record t : Type := mk {
  db_path : string;
  conn : Sqlite.Connection
}.

Abbreviation St := (t * Disk)%type.

(** Run a statement on [self.conn]. *)
Definition on_conn {A} (m : M Sqlite.St A) : M St A :=
  λ σ, let '(o, (c, d)) := m (conn σ.1, σ.2) in
       (o, ({| db_path := db_path σ.1; conn := c |}, d)).

Definition _init_db : M St unit :=
  on_conn (Sqlite.with_connection
             (Sqlite.execute_create_table ;>
              Sqlite.execute_create_index ;>
              Sqlite.commit))%monad.

(** [DeduplicationStore(db_path)] *)
Definition __init__ (db_path : string) (d : Disk) : outcome unit * St :=
  _init_db ({| db_path := db_path; conn := Sqlite.connect db_path |}, d).

(** [SELECT 1 ... WHERE topic = ? AND event_id = ?], [fetchone() is not None] *)
Definition _sync_check (topic event_id : string) : M St bool :=
  (let* cursor :=
     on_conn (Sqlite.execute_select
                (λ r, bool_decide (row_topic r = topic)
                      && bool_decide (row_event_id r = event_id))) in
   ret (bool_decide (head cursor ≠ None)))%monad.

Definition is_processed (topic event_id : string) : M St bool :=
  _sync_check topic event_id.

(** [now] is the reading of [datetime.now(timezone.utc).isoformat()] taken
    inside the method. *)
Definition _sync_mark (topic event_id timestamp : string) (now : string)
  : M St bool :=
  try_except
    (on_conn (Sqlite.execute_insert (topic, event_id, timestamp, now)) ;>
     on_conn Sqlite.commit ;>
     ret true)%monad
    IntegrityError
    (ret false).

Definition mark_processed (topic event_id timestamp : string) (now : string)
  : M St bool :=
  _sync_mark topic event_id timestamp now.

(** Python truth value of an [Optional[str]]: [None] and [""] are false. *)
Definition truthy (topic : option string) : bool :=
  match topic with
  | None => false
  | Some s => bool_decide (s ≠ "")
  end.

Definition _sync_fetch_events (topic : option string) : M St (list row) :=
  if truthy topic then
    on_conn (Sqlite.execute_select_order_by_processed_at_desc
               (λ r, bool_decide (Some (row_topic r) = topic)))
  else
    on_conn (Sqlite.execute_select_order_by_processed_at_desc (λ _, true)).

Definition get_processed_events (topic : option string) : M St (list row) :=
  _sync_fetch_events topic.

(** [{"total_unique": total, "topics": topics}] *)
Record store_stats : Type := {
  total_unique : Z;
  topics : gmap string Z
}.

(** [SELECT topic, COUNT( * ) ... GROUP BY topic] as the dict built from it. *)
Definition count_by_topic (rows : list row) : gmap string Z :=
  foldr (λ r m, <[row_topic r := default 0 (m !! row_topic r) + 1]> m) ∅ rows.

Definition _sync_get_stats : M St store_stats :=
  (let* all := on_conn (Sqlite.execute_select (λ _, true)) in
   let total := Z.of_nat (length all) in
   let* all' := on_conn (Sqlite.execute_select (λ _, true)) in
   ret {| total_unique := total; topics := count_by_topic all' |})%monad.

Definition get_stats : M St store_stats := _sync_get_stats.

Definition _sync_clear : M St unit :=
  (on_conn Sqlite.execute_delete_all ;>
   on_conn Sqlite.commit)%monad.

Definition clear : M St unit := _sync_clear.

Definition close : M St unit := on_conn Sqlite.close.

(** The instance can be used: its connection is open. *)
Definition live (s : t) : Prop := Sqlite.closed (conn s) = false.

(** The records as this instance sees them. *)
Definition records (s : t) (d : Disk) : option table := Sqlite.view (conn s) d.

(** A record with identity [(topic, event_id)] is stored. *)
Definition has_identity (topic event_id : string) (rows : table) : Prop :=
  Exists (λ r, row_topic r = topic ∧ row_event_id r = event_id) rows.

(** *** A session with one instance *)

(** The calls a client makes on the store. *)
Inductive store_call : Type :=
  | IsProcessed (topic event_id : string)
  | MarkProcessed (topic event_id timestamp : string) (now : string)
  | GetProcessedEvents (topic : option string)
  | GetStats
  | Clear.

(** The state after a call, whatever it returned or raised. *)
Definition perform (c : store_call) (σ : St) : St :=
  match c with
  | IsProcessed topic event_id => (is_processed topic event_id σ).2
  | MarkProcessed topic event_id timestamp now =>
      (mark_processed topic event_id timestamp now σ).2
  | GetProcessedEvents topic => (get_processed_events topic σ).2
  | GetStats => (get_stats σ).2
  | Clear => (clear σ).2
  end.

Definition session (cs : list store_call) (σ : St) : St :=
  foldl (λ σ c, perform c σ) σ cs.

(** An open instance on the file [path]: the table is in the file, and a
    transaction left open has changed nothing. *)
Definition settled (path : string) (rows : table) (s : t) (d : Disk) : Prop :=
  db_path s = path
  ∧ Sqlite.closed (conn s) = false
  ∧ Sqlite.database (conn s) = Sqlite.File path
  ∧ d !! path = Some rows
  ∧ (Sqlite.txn (conn s) = None ∨ Sqlite.txn (conn s) = Some rows).

End DeduplicationStore.

(** ** [Event] ([src/model.py]) *)

Module Event.

(** The validated event handed to the core. The payload is opaque. *)
Record t : Type := mk {
  topic : string;
  event_id : string;
  timestamp : string;
  source : string;
  payload : list (string * string)
}.

(** The identity key [(topic, event_id)]. *)
Definition identity (e : t) : string * string := (topic e, event_id e).

End Event.

(** ** [EventAggregator] ([src/aggregator.py]) *)

Module EventAggregator.

(** [self.stats]. [start_time] is a reading of [time.time()], taken as an
    exact number of clock ticks. *)
Record stats_t : Type := mk_stats {
  received : Z;
  unique_processed : Z;
  duplicate_dropped : Z;
  start_time : Z
}.

(** A consumer task ([_consume_events]) between two suspension points. *)
Inductive task : Type :=
  | Created                                  (* create_task, not yet run *)
  | Waiting                                  (* in wait_for(queue.get(), 0.1) *)
  | Marking (event : Event.t)                (* mark_processed handed to its thread *)
  | Marked (event : Event.t) (was_new : bool) (* mark_processed returned *)
  | Sleeping                                 (* in asyncio.sleep(0.0001) *)
  | Finished.                                (* loop left, or cancelled *)

Record t : Type := mk {
  dedup_store : DeduplicationStore.t;
  queue : list Event.t;
  stats : stats_t;
  running : bool;
  consumer_tasks : list task
}.

Abbreviation St := (t * Disk)%type.

Definition set_stats (f : stats_t → stats_t) (a : t) : t :=
  {| dedup_store := dedup_store a; queue := queue a; stats := f (stats a);
     running := running a; consumer_tasks := consumer_tasks a |}.
Definition set_queue (f : list Event.t → list Event.t) (a : t) : t :=
  {| dedup_store := dedup_store a; queue := f (queue a); stats := stats a;
     running := running a; consumer_tasks := consumer_tasks a |}.
Definition set_running (b : bool) (a : t) : t :=
  {| dedup_store := dedup_store a; queue := queue a; stats := stats a;
     running := b; consumer_tasks := consumer_tasks a |}.
Definition set_consumer_tasks (ts : list task) (a : t) : t :=
  {| dedup_store := dedup_store a; queue := queue a; stats := stats a;
     running := running a; consumer_tasks := ts |}.

Definition incr_received (s : stats_t) : stats_t :=
  {| received := received s + 1; unique_processed := unique_processed s;
     duplicate_dropped := duplicate_dropped s; start_time := start_time s |}.
Definition incr_unique_processed (s : stats_t) : stats_t :=
  {| received := received s; unique_processed := unique_processed s + 1;
     duplicate_dropped := duplicate_dropped s; start_time := start_time s |}.
Definition incr_duplicate_dropped (s : stats_t) : stats_t :=
  {| received := received s; unique_processed := unique_processed s;
     duplicate_dropped := duplicate_dropped s + 1; start_time := start_time s |}.

(** Mutate the aggregator object. *)
Definition update (f : t → t) : M St unit := modify (λ σ : St, (f σ.1, σ.2)).

(** Call a method of [self.dedup_store]. *)
Definition on_store {A} (m : M DeduplicationStore.St A) : M St A :=
  λ σ, let '(o, (s, d)) := m (dedup_store σ.1, σ.2) in
       (o, ({| dedup_store := s; queue := queue σ.1; stats := stats σ.1;
               running := running σ.1;
               consumer_tasks := consumer_tasks σ.1 |}, d)).

(** [EventAggregator(dedup_store)]; [now] is the reading of [time.time()]. *)
Definition __init__ (dedup_store : DeduplicationStore.t) (now : Z) : t :=
  {| dedup_store := dedup_store;
     queue := [];
     stats := {| received := 0; unique_processed := 0;
                 duplicate_dropped := 0; start_time := now |};
     running := false;
     consumer_tasks := [] |}.

(** [start()]: five consumer tasks, unless already running. *)
Definition start : M St unit :=
  (let* σ := get in
   if negb (running σ.1) then
     update (set_running true) ;>
     update (set_consumer_tasks (replicate 5 Created))
   else ret tt)%monad.

(** [task.cancel()] followed by the [gather]: the task has ended, whatever
    it was doing; an event it held is not counted. *)
Definition cancel (k : task) : task := Finished.

(** [stop()] *)
Definition stop : M St unit :=
  (update (set_running false) ;>
   let* σ := get in
   if bool_decide (consumer_tasks σ.1 ≠ []) then
     update (λ a, set_consumer_tasks (cancel <$> consumer_tasks a) a) ;>
     on_store DeduplicationStore.close
   else ret tt)%monad.

(** The dict [publish] returns. *)
Record publish_result : Type := mk_result {
  accepted : Z;
  rejected : Z;
  duplicates_immediate : Z
}.

Definition result0 : publish_result :=
  {| accepted := 0; rejected := 0; duplicates_immediate := 0 |}.

(** The body of the loop of [publish], in its three stretches:
    before the store is asked, the store's answer, and what follows it. *)
Definition count_received : M St unit := update (set_stats incr_received).

Definition ask_store (event : Event.t) : M St bool :=
  on_store (DeduplicationStore.is_processed
              (Event.topic event) (Event.event_id event)).

Definition after_check (dup : bool) (event : Event.t) (result : publish_result)
  : M St publish_result :=
  (if dup then
     update (set_stats incr_duplicate_dropped) ;>
     ret {| accepted := accepted result;
            rejected := rejected result + 1;
            duplicates_immediate := duplicates_immediate result + 1 |}
   else
     update (set_queue (λ q, q ++ [event])) ;>
     ret {| accepted := accepted result + 1;
            rejected := rejected result;
            duplicates_immediate := duplicates_immediate result |})%monad.

Definition publish_event (event : Event.t) (result : publish_result)
  : M St publish_result :=
  (count_received ;>
   let* dup := ask_store event in
   after_check dup event result)%monad.

Fixpoint publish_loop (events : list Event.t) (result : publish_result)
  : M St publish_result :=
  match events with
  | [] => ret result
  | event :: rest =>
      (let* result' := publish_event event result in
       publish_loop rest result')%monad
  end.

(** [publish(events)], run without another task in between. *)
Definition publish (events : list Event.t) : M St publish_result :=
  publish_loop events result0.

(** [_process_event(event)], in its two stretches: the store's insert and
    the counting that follows. [now] is the clock reading of the store. *)
Definition mark (event : Event.t) (now : string) : M St bool :=
  on_store (DeduplicationStore.mark_processed
              (Event.topic event) (Event.event_id event)
              (Event.timestamp event) now).

Definition count_outcome (was_new : bool) : M St unit :=
  if was_new then update (set_stats incr_unique_processed)
  else update (set_stats incr_duplicate_dropped).

Definition _process_event (event : Event.t) (now : string) : M St unit :=
  (let* was_new := mark event now in
   count_outcome was_new)%monad.

(** [StatsResponse] *)
Record StatsResponse : Type := mk_response {
  r_received : Z;
  r_unique_processed : Z;
  r_duplicate_dropped : Z;
  r_topics : gmap string Z;
  uptime : Z
}.

(** [get_stats()]; [now] is the reading of [time.time()]. *)
Definition get_stats (now : Z) : M St StatsResponse :=
  (let* store_stats := on_store DeduplicationStore.get_stats in
   let* σ := get in
   let uptime := now - start_time (stats σ.1) in
   ret {| r_received := received (stats σ.1);
          r_unique_processed := unique_processed (stats σ.1);
          r_duplicate_dropped := duplicate_dropped (stats σ.1);
          r_topics := DeduplicationStore.topics store_stats;
          uptime := uptime |})%monad.

(** One element of the list [get_events] returns. *)
Record ProcessedRecord : Type := mk_record {
  topic : string;
  event_id : string;
  timestamp : string;
  processed_at : string
}.

Definition record_of_row (e : row) : ProcessedRecord :=
  {| topic := row_topic e; event_id := row_event_id e;
     timestamp := row_timestamp e; processed_at := row_processed_at e |}.

(** [get_events(topic)] *)
Definition get_events (topic : option string) : M St (list ProcessedRecord) :=
  (let* events := on_store (DeduplicationStore.get_processed_events topic) in
   ret (record_of_row <$> events))%monad.

(** *** What a query result is compared with *)



(** [l] holds exactly the records of [rows]. *)
Definition all_records (rows : table) (l : list ProcessedRecord) : Prop :=
  l ≡ₚ record_of_row <$> rows.


End EventAggregator.

(** ** The schedule of publish calls and consumer tasks

    The event loop runs one task at a time from one suspension point
    ([await]) to the next; a store method runs in a thread, as a whole
    under the store's lock, between the suspension of its caller and the
    caller's resumption. A step below is one such stretch; a schedule is
    the list of the stretches in the order they run. *)

Module Interleaving.
Import EventAggregator.

(** A [publish] call between two suspension points. *)
Inductive call_state : Type :=
  | Checking (event : Event.t) (rest : list Event.t) (result : publish_result)
      (* [received] counted, [is_processed] handed to its thread *)
  | Checked (dup : bool) (event : Event.t) (rest : list Event.t)
            (result : publish_result)
      (* [is_processed] returned *)
  | Returned (result : publish_result)
  | Raised (e : exn).

Record call : Type := mk_call {
  events : list Event.t;     (* the argument of the call *)
  at_ : call_state
}.

Record System : Type := mk_system {
  agg : EventAggregator.t;
  disk : Disk;
  calls : list call
}.

(** From the head of the loop of [publish] to its next suspension. *)
Definition to_next_check (rest : list Event.t) (result : publish_result)
  : M St call_state :=
  match rest with
  | [] => ret (Returned result)
  | event :: rest' =>
      (count_received ;> ret (Checking event rest' result))%monad
  end.

Definition call_step (c : call_state) : option (St → call_state * St) :=
  match c with
  | Checking event rest result =>
      Some (settle (let* dup := ask_store event in
                    ret (Checked dup event rest result))%monad
                   (λ e _, Raised e))
  | Checked dup event rest result =>
      Some (settle (let* result' := after_check dup event result in
                    to_next_check rest result')%monad
                   (λ e _, Raised e))
  | Returned _ | Raised _ => None
  end.

(** [while self.running or not self.queue.empty()] *)
Definition loop_head (a : EventAggregator.t) : task :=
  if running a || bool_decide (queue a ≠ []) then Waiting else Finished.

(** One stretch of [_consume_events]. An exception of the body is logged
    and the loop goes on. *)
Definition worker_step (k : task) (now : string) : option (St → task * St) :=
  let logged (body : M St task) :=
    settle body (λ _ σ, loop_head σ.1) in
  match k with
  | Created => Some (logged (let* σ := get in ret (loop_head σ.1))%monad)
  | Waiting =>
      Some (logged
        (let* σ := get in
         match queue σ.1 with
         | [] => ret (loop_head σ.1)              (* TimeoutError: continue *)
         | event :: q =>
             update (set_queue (λ _, q)) ;> ret (Marking event)
         end)%monad)
  | Marking event =>
      Some (logged (let* was_new := mark event now in
                    ret (Marked event was_new))%monad)
  | Marked event was_new =>
      Some (logged
        (count_outcome was_new ;>
         if was_new then ret Sleeping
         else let* σ := get in ret (loop_head σ.1))%monad)
  | Sleeping => Some (logged (let* σ := get in ret (loop_head σ.1))%monad)
  | Finished => None
  end.

(** What the scheduler picks next. *)
Inductive action : Type :=
  | Publish (events : list Event.t)     (* a caller invokes [publish(events)] *)
  | CallStep (i : nat)                  (* the [i]-th call runs its next stretch *)
  | WorkerStep (j : nat) (now : string).
      (* the [j]-th consumer runs its next stretch; [now] is the clock
         reading of the store if the stretch is the insert *)

Definition exec (a : action) (sys : System) : option System :=
  match a with
  | Publish evs =>
      let '(c, (ag, d)) :=
        settle (to_next_check evs result0) (λ e _, Raised e) (agg sys, disk sys) in
      Some {| agg := ag; disk := d;
              calls := calls sys ++ [{| events := evs; at_ := c |}] |}
  | CallStep i =>
      c ← calls sys !! i;
      f ← call_step (at_ c);
      let '(c', (ag, d)) := f (agg sys, disk sys) in
      Some {| agg := ag; disk := d;
              calls := <[i := {| events := events c; at_ := c' |}]> (calls sys) |}
  | WorkerStep j now =>
      k ← consumer_tasks (agg sys) !! j;
      f ← worker_step k now;
      let '(k', (ag, d)) := f (agg sys, disk sys) in
      Some {| agg := set_consumer_tasks (<[j := k']> (consumer_tasks ag)) ag;
              disk := d; calls := calls sys |}
  end.

Fixpoint run (schedule : list action) (sys : System) : option System :=
  match schedule with
  | [] => Some sys
  | a :: schedule' => sys' ← exec a sys; run schedule' sys'
  end.

(** The schedule in which the [i]-th call runs alone through [n] events:
    two stretches an event, the store's answer and what follows it. *)
Fixpoint alone (i n : nat) : list action :=
  match n with
  | O => []
  | S n' => CallStep i :: CallStep i :: alone i n'
  end.

(** The events handed to [publish] over the schedule. *)
Fixpoint published (schedule : list action) : list Event.t :=
  match schedule with
  | [] => []
  | Publish evs :: schedule' => evs ++ published schedule'
  | _ :: schedule' => published schedule'
  end.

Definition holds_event (k : task) : bool :=
  match k with
  | Marking _ | Marked _ _ => true
  | _ => false
  end.

Definition returned (c : call) : bool :=
  match at_ c with
  | Returned _ => true
  | _ => false
  end.

(** The queue is drained: every call has returned, the queue is empty and
    no consumer holds an event. *)
Definition drained (sys : System) : Prop :=
  Forall (λ c, returned c) (calls sys)
  ∧ queue (agg sys) = []
  ∧ Forall (λ k, holds_event k = false) (consumer_tasks (agg sys)).

(** The service after construction and [start()]: no call yet, nothing
    queued, counters at zero, consumers created, store usable. *)
Definition started (sys : System) : Prop :=
  calls sys = []
  ∧ queue (agg sys) = []
  ∧ received (stats (agg sys)) = 0
  ∧ unique_processed (stats (agg sys)) = 0
  ∧ duplicate_dropped (stats (agg sys)) = 0
  ∧ Forall (λ k, holds_event k = false) (consumer_tasks (agg sys))
  ∧ DeduplicationStore.live (dedup_store (agg sys))
  ∧ is_Some (DeduplicationStore.records (dedup_store (agg sys)) (disk sys)).

(** Construct the store at [db_path], the aggregator over it, and start. *)
Definition boot (db_path : string) (d : Disk) (now : Z) : System :=
  let '(_, (store, d1)) := DeduplicationStore.__init__ db_path d in
  let '(_, (ag, d2)) := start (EventAggregator.__init__ store now, d1) in
  {| agg := ag; disk := d2; calls := [] |}.

(** *** The stretches as functions of the aggregator

    With a usable store every stretch is determined by the state it
    starts from; [step] below lists them. *)

Definition resume_result (dup : bool) (result : publish_result) : publish_result :=
  if dup then
    {| accepted := accepted result;
       rejected := rejected result + 1;
       duplicates_immediate := duplicates_immediate result + 1 |}
  else
    {| accepted := accepted result + 1;
       rejected := rejected result;
       duplicates_immediate := duplicates_immediate result |}.

Definition resume_agg (dup : bool) (event : Event.t) (a : EventAggregator.t)
  : EventAggregator.t :=
  if dup then set_stats incr_duplicate_dropped a
  else set_queue (λ q, q ++ [event]) a.

Definition next (rest : list Event.t) (result : publish_result)
    (a : EventAggregator.t) : call_state * EventAggregator.t :=
  match rest with
  | [] => (Returned result, a)
  | event :: rest' => (Checking event rest' result, set_stats incr_received a)
  end.

Definition with_store (s : DeduplicationStore.t) (a : EventAggregator.t)
  : EventAggregator.t :=
  {| dedup_store := s; queue := queue a; stats := stats a;
     running := running a; consumer_tasks := consumer_tasks a |}.

Definition count_agg (was_new : bool) (a : EventAggregator.t) : EventAggregator.t :=
  if was_new then set_stats incr_unique_processed a
  else set_stats incr_duplicate_dropped a.

(** The identity of [event] is among the stored [rows]. *)
Definition known (rows : table) (event : Event.t) : Prop :=
  DeduplicationStore.has_identity (Event.topic event) (Event.event_id event) rows.

(** The records of the store of the system. *)
Definition stored (sys : System) : option table :=
  DeduplicationStore.records (dedup_store (agg sys)) (disk sys).

(** The store of the system can be used. *)
Definition usable (sys : System) : Prop :=
  DeduplicationStore.live (dedup_store (agg sys)) ∧ is_Some (stored sys).

Inductive step (sys : System) : action → System → Prop :=
  | step_publish evs :
      step sys (Publish evs)
        {| agg := (next evs result0 (agg sys)).2; disk := disk sys;
           calls := calls sys
                    ++ [{| events := evs;
                           at_ := (next evs result0 (agg sys)).1 |}] |}
  | step_check i evs event rest result rows :
      calls sys !! i = Some {| events := evs; at_ := Checking event rest result |} →
      stored sys = Some rows →
      step sys (CallStep i)
        {| agg := agg sys; disk := disk sys;
           calls := <[i := {| events := evs;
                              at_ := Checked (bool_decide (known rows event))
                                             event rest result |}]> (calls sys) |}
  | step_resume i evs dup event rest result :
      calls sys !! i
        = Some {| events := evs; at_ := Checked dup event rest result |} →
      let n := next rest (resume_result dup result)
                    (resume_agg dup event (agg sys)) in
      step sys (CallStep i)
        {| agg := n.2; disk := disk sys;
           calls := <[i := {| events := evs; at_ := n.1 |}]> (calls sys) |}
  | step_loop j now k :
      consumer_tasks (agg sys) !! j = Some k →
      k = Created ∨ k = Sleeping ∨ (k = Waiting ∧ queue (agg sys) = []) →
      step sys (WorkerStep j now)
        {| agg := set_consumer_tasks
                    (<[j := loop_head (agg sys)]> (consumer_tasks (agg sys)))
                    (agg sys);
           disk := disk sys; calls := calls sys |}
  | step_get j now event q :
      consumer_tasks (agg sys) !! j = Some Waiting →
      queue (agg sys) = event :: q →
      step sys (WorkerStep j now)
        {| agg := set_consumer_tasks
                    (<[j := Marking event]> (consumer_tasks (agg sys)))
                    (set_queue (λ _, q) (agg sys));
           disk := disk sys; calls := calls sys |}
  | step_mark j event now rows s' d' :
      consumer_tasks (agg sys) !! j = Some (Marking event) →
      stored sys = Some rows →
      DeduplicationStore.live s' →
      DeduplicationStore.records s' d' =
        Some (if bool_decide (known rows event) then rows
              else rows ++ [(Event.topic event, Event.event_id event,
                             Event.timestamp event, now)]) →
      step sys (WorkerStep j now)
        {| agg := set_consumer_tasks
                    (<[j := Marked event (negb (bool_decide (known rows event)))]>
                       (consumer_tasks (agg sys)))
                    (with_store s' (agg sys));
           disk := d'; calls := calls sys |}
  | step_count j now event was_new :
      consumer_tasks (agg sys) !! j = Some (Marked event was_new) →
      let a := count_agg was_new (agg sys) in
      step sys (WorkerStep j now)
        {| agg := set_consumer_tasks
                    (<[j := if was_new then Sleeping else loop_head a]>
                       (consumer_tasks (agg sys))) a;
           disk := disk sys; calls := calls sys |}.

(** *** Measures of a system state *)

Definition total {A} (f : A → Z) (l : list A) : Z :=
  foldr (λ x n, f x + n) 0 l.

(** The call has counted an event as received and not yet disposed of it. *)
Definition checking (c : call) : Z :=
  match at_ c with
  | Checking _ _ _ | Checked _ _ _ _ => 1
  | _ => 0
  end.

Definition holding (k : task) : Z := if holds_event k then 1 else 0.

(** The events of its argument the call has counted as received. *)
Definition consumed (c : call) : Z :=
  Z.of_nat (length (events c))
  - match at_ c with
    | Checking _ rest _ | Checked _ _ rest _ => Z.of_nat (length rest)
    | _ => 0
    end.

Definition marked_new (k : task) : Z :=
  match k with
  | Marked _ true => 1
  | _ => 0
  end.

Definition events_of_call (c : call) : list Event.t :=
  match at_ c with
  | Checking event rest _ | Checked _ event rest _ => event :: rest
  | _ => []
  end.

Definition events_of_task (k : task) : list Event.t :=
  match k with
  | Marking event | Marked event _ => [event]
  | _ => []
  end.

(** The call, the task, has been told that its event is a duplicate. *)
Definition told_duplicate_call (c : call) : bool :=
  match at_ c with
  | Checked true _ _ _ => true
  | _ => false
  end.

Definition told_duplicate_task (k : task) : bool :=
  match k with
  | Marked _ false => true
  | _ => false
  end.

(** Every received event is counted, queued, or in the hands of a call or
    of a consumer. *)
Definition conserved (sys : System) : Prop :=
  received (stats (agg sys)) =
    unique_processed (stats (agg sys))
    + duplicate_dropped (stats (agg sys))
    + Z.of_nat (length (queue (agg sys)))
    + total checking (calls sys)
    + total holding (consumer_tasks (agg sys)).

(** The state of a run in which only the identity [k] is published,
    from an empty store. *)
Record single_identity (k : string * string) (sys : System) : Prop := {
  si_rows : ∃ rows, stored sys = Some rows
      ∧ Forall (λ r, (row_topic r, row_event_id r) = k) rows
      ∧ (length rows ≤ 1)%nat
      ∧ unique_processed (stats (agg sys))
          + total marked_new (consumer_tasks (agg sys))
        = Z.of_nat (length rows)
      ∧ (rows = [] →
           duplicate_dropped (stats (agg sys)) = 0
           ∧ Forall (λ c, told_duplicate_call c = false) (calls sys)
           ∧ Forall (λ t, told_duplicate_task t = false)
                    (consumer_tasks (agg sys)));
  si_queue : Forall (λ e, Event.identity e = k) (queue (agg sys));
  si_calls : Forall (λ c, Forall (λ e, Event.identity e = k) (events_of_call c))
                    (calls sys);
  si_tasks : Forall (λ t, Forall (λ e, Event.identity e = k) (events_of_task t))
                    (consumer_tasks (agg sys));
  si_received : received (stats (agg sys)) = total consumed (calls sys)
}.

End Interleaving.

(** ** A run of the service

    The first scenario of the test suite: two events of identity
    [("test.topic", "evt_001")] with different timestamps are published in
    one call; two consumers take one each. *)

Module Scenario.
Import EventAggregator Interleaving.

Definition e1 : Event.t :=
  Event.mk "test.topic" "evt_001" "2025-10-18T10:00:00Z" "test" [].
Definition e2 : Event.t :=
  Event.mk "test.topic" "evt_001" "2025-10-18T10:01:00Z" "test" [].

Definition sys0 : System := boot "dedup_store.db" ∅ 1760781600.

Definition schedule : list action :=
  [ Publish [e1; e2];
    CallStep 0; CallStep 0;            (* e1: asked, queued *)
    CallStep 0; CallStep 0;            (* e2: asked, queued; the call returns *)
    WorkerStep 0 ""; WorkerStep 0 "";  (* consumer 0 starts and takes e1 *)
    WorkerStep 1 ""; WorkerStep 1 "";  (* consumer 1 starts and takes e2 *)
    WorkerStep 0 "2025-10-18T10:00:02.100000+00:00";      (* insert of e1 *)
    WorkerStep 1 "2025-10-18T10:00:02.200000+00:00";      (* insert of e2 *)
    WorkerStep 1 ""; WorkerStep 0 ""; WorkerStep 0 "" ]%nat.

Definition final : System := default sys0 (run schedule sys0).

(** The rows the store holds at the end. *)
Definition final_rows : table :=
  [("test.topic", "evt_001", "2025-10-18T10:00:00Z",
    "2025-10-18T10:00:02.100000+00:00")].

(** A store with records of two topics. *)
Definition two_topics : EventAggregator.St :=
  ((mark (Event.mk "topic_a" "evt_a_0" "2025-10-18T10:00:00Z" "test" [])
         "2025-10-18T10:00:01.000001+00:00" ;>
    mark (Event.mk "topic_b" "evt_b_0" "2025-10-18T10:00:00Z" "test" [])
         "2025-10-18T10:00:01.000002+00:00" ;>
    mark (Event.mk "topic_a" "evt_a_1" "2025-10-18T10:00:00Z" "test" [])
         "2025-10-18T10:00:01.000003+00:00")%monad
     (agg sys0, disk sys0)).2.

Definition two_topics_rows : table :=
  [("topic_a", "evt_a_0", "2025-10-18T10:00:00Z",
    "2025-10-18T10:00:01.000001+00:00");
   ("topic_b", "evt_b_0", "2025-10-18T10:00:00Z",
    "2025-10-18T10:00:01.000002+00:00");
   ("topic_a", "evt_a_1", "2025-10-18T10:00:00Z",
    "2025-10-18T10:00:01.000003+00:00")].


End Scenario.

(** ** The table a session leaves *)

Module TableModel.
Import DeduplicationStore.

(** The primary key of a row. *)
Definition key (r : row) : string * string := (row_topic r, row_event_id r).

(** What a call of the store does to the records, as a function of the
    records alone. *)
Definition effect (c : store_call) (rows : table) : table :=
  match c with
  | MarkProcessed topic event_id timestamp now =>
      if decide (has_identity topic event_id rows) then rows
      else rows ++ [(topic, event_id, timestamp, now)]
  | Clear => []
  | IsProcessed _ _ | GetProcessedEvents _ | GetStats => rows
  end.

Definition is_clear (c : store_call) : bool :=
  match c with
  | Clear => true
  | _ => false
  end.

End TableModel.

(** ** A session with the store *)

Module Examples.
Import DeduplicationStore.

(** A store constructed on a new file. *)
Definition store0 : DeduplicationStore.St :=
  (DeduplicationStore.__init__ "dedup_store.db" ∅).2.

(** Two events of one identity and one of another are marked, with a
    check and a query in between. *)
Definition calls : list store_call :=
  [ MarkProcessed "orders" "evt_1" "2025-10-18T10:00:00Z"
                  "2025-10-18T10:00:01.000001+00:00";
    IsProcessed "orders" "evt_1";
    MarkProcessed "orders" "evt_1" "2025-10-18T10:05:00Z"
                  "2025-10-18T10:00:01.000002+00:00";
    GetProcessedEvents (Some "orders");
    MarkProcessed "users" "evt_1" "2025-10-18T10:00:00Z"
                  "2025-10-18T10:00:01.000003+00:00";
    GetStats ].

(** The store after the session. *)
Definition store1 : DeduplicationStore.St := session calls store0.

Definition rows1 : table :=
  [("orders", "evt_1", "2025-10-18T10:00:00Z",
    "2025-10-18T10:00:01.000001+00:00");
   ("users", "evt_1", "2025-10-18T10:00:00Z",
    "2025-10-18T10:00:01.000003+00:00")].

End Examples.

(** ** A service whose store has been closed under it *)

Module Stalled.
Import EventAggregator Interleaving.

(** One event is published and taken by a consumer, a second call has
    counted its event; before the consumer's insert and the call's check
    run, the store is closed (as the owner of the store may do by
    [dedup_store.close()]). *)
Definition schedule : list action :=
  [ Publish [Scenario.e1]; CallStep 0; CallStep 0;
    WorkerStep 0 ""; WorkerStep 0 "";
    Publish [Scenario.e2] ]%nat.

Definition before_close : System :=
  default Scenario.sys0 (run schedule Scenario.sys0).

Definition sys : System :=
  let '(_, (a, d)) :=
    on_store DeduplicationStore.close (agg before_close, disk before_close) in
  {| agg := a; disk := d; calls := calls before_close |}.

End Stalled.

(** ** Where every published event is *)

Module Accounting.
Import EventAggregator Interleaving TableModel.

(** The events handed to the calls made so far. *)
Definition arguments (sys : System) : list Event.t :=
  mjoin (events <$> calls sys).

(** The event is taken care of: its identity is stored, or the event is in
    the queue, or a consumer holds it for its insert. *)
Definition covered (sys : System) (e : Event.t) : Prop :=
  (∃ rows, stored sys = Some rows ∧ known rows e)
  ∨ e ∈ queue (agg sys)
  ∨ Marking e ∈ consumer_tasks (agg sys).

(** The event the call has been told is a duplicate. *)
Definition answered_duplicate (c : call) : list Event.t :=
  match at_ c with
  | Checked true event _ _ => [event]
  | _ => []
  end.

(** The state of a run over a store that held [rows0] at the start. *)
Record accounted (rows0 : table) (sys : System) : Prop := {
  ac_rows : ∃ more,
      stored sys = Some (rows0 ++ more)
      ∧ NoDup (key <$> (rows0 ++ more))
      ∧ unique_processed (stats (agg sys))
          + total marked_new (consumer_tasks (agg sys))
        = Z.of_nat (length more)
      ∧ Forall (λ r, key r ∈ Event.identity <$> arguments sys) more;
  ac_queue : Forall (λ e, e ∈ arguments sys) (queue (agg sys));
  ac_tasks : Forall (λ t, Forall (λ e, e ∈ arguments sys) (events_of_task t))
                    (consumer_tasks (agg sys));
  ac_calls : Forall (λ c, ∃ done,
                       events c = done ++ events_of_call c
                       ∧ Forall (covered sys) (done ++ answered_duplicate c))
                    (calls sys);
  ac_received : received (stats (agg sys)) = total consumed (calls sys)
}.

(** The identities among [ids] that [rows0] does not hold, each once. *)
Definition new_identities (rows0 : table) (ids : list (string * string))
  : list (string * string) :=
  remove_dups (filter (λ k, k ∉ key <$> rows0) ids).

End Accounting.

(** ** A run with several identities *)

Module ManyIdentities.
Import EventAggregator Interleaving.

Definition ea : Event.t :=
  Event.mk "topic_a" "evt_1" "2025-10-18T10:00:00Z" "test" [].
Definition eb : Event.t :=
  Event.mk "topic_b" "evt_1" "2025-10-18T10:00:00Z" "test" [].

(** Two calls, [publish([ea, eb])] and [publish([ea])], both through the
    gate before any insert; one consumer then takes the three events. *)
Definition schedule : list action :=
  [ Publish [ea; eb]; CallStep 0; CallStep 0; CallStep 0; CallStep 0;
    Publish [ea]; CallStep 1; CallStep 1;
    WorkerStep 0 ""; WorkerStep 0 "";
    WorkerStep 0 "2025-10-18T10:00:01.000001+00:00";
    WorkerStep 0 ""; WorkerStep 0 "";
    WorkerStep 0 "";
    WorkerStep 0 "2025-10-18T10:00:01.000002+00:00";
    WorkerStep 0 ""; WorkerStep 0 "";
    WorkerStep 0 "";
    WorkerStep 0 "2025-10-18T10:00:01.000003+00:00";
    WorkerStep 0 "" ]%nat.

Definition final : System := default Scenario.sys0 (run schedule Scenario.sys0).

End ManyIdentities.

(** * Properties *)

(** ** The store *)

Section Store.
Import DeduplicationStore.

Lemma pk_taken_spec topic event_id (rows : table) :
  Sqlite.pk_taken topic event_id rows = true ↔ has_identity topic event_id rows.
Proof. unfold Sqlite.pk_taken, has_identity. apply bool_decide_eq_true. Qed.

Lemma pk_taken_false topic event_id (rows : table) :
  Sqlite.pk_taken topic event_id rows = false ↔ ¬ has_identity topic event_id rows.
Proof. unfold Sqlite.pk_taken, has_identity. apply bool_decide_eq_false. Qed.

(** The view once the working copy has been written back. *)
Lemma view_write_committed c d rows :
  Sqlite.view (Sqlite.set_txn (Sqlite.write_committed c d rows).1 None)
              (Sqlite.write_committed c d rows).2 = Some rows.
Proof.
  unfold Sqlite.view, Sqlite.committed, Sqlite.write_committed.
  destruct c as [cl [p|o] tx]; simpl; [apply lookup_insert_eq | done].
Qed.

Lemma committed_write_committed c d rows :
  Sqlite.committed (Sqlite.set_txn (Sqlite.write_committed c d rows).1 None)
                   (Sqlite.write_committed c d rows).2 = Some rows.
Proof.
  unfold Sqlite.committed, Sqlite.write_committed.
  destruct c as [cl [p|o] tx]; simpl; [apply lookup_insert_eq | done].
Qed.

(** The statements on an open connection whose table exists. *)
Lemma execute_insert_eq c d rows r :
  Sqlite.closed c = false → Sqlite.view c d = Some rows →
  Sqlite.execute_insert r (c, d) =
    if Sqlite.pk_taken (row_topic r) (row_event_id r) rows
    then (Raise IntegrityError, (Sqlite.set_txn c (Some rows), d))
    else (Return tt, (Sqlite.set_txn c (Some (rows ++ [r])), d)).
Proof.
  intros Hopen Hview.
  unfold Sqlite.execute_insert, Sqlite.begin_if_needed, Sqlite.read_table,
    Sqlite.check_open, bind, modify, ret, raise.
  cbn [fst snd]. rewrite Hopen. cbn [fst snd]. rewrite Hview. cbn [fst snd].
  destruct (Sqlite.pk_taken _ _ rows); reflexivity.
Qed.

Lemma execute_select_eq c d rows where_ :
  Sqlite.closed c = false → Sqlite.view c d = Some rows →
  Sqlite.execute_select where_ (c, d) =
    (Return (filter (λ r, where_ r) rows), (c, d)).
Proof.
  intros Hopen Hview.
  unfold Sqlite.execute_select, Sqlite.read_table, Sqlite.check_open, bind, ret.
  cbn [fst snd]. rewrite Hopen. cbn [fst snd]. by rewrite Hview.
Qed.

Lemma commit_eq c d :
  Sqlite.closed c = false →
  Sqlite.commit (c, d) =
    match Sqlite.txn c with
    | None => (Return tt, (c, d))
    | Some rows =>
        (Return tt, (Sqlite.set_txn (Sqlite.write_committed c d rows).1 None,
                     (Sqlite.write_committed c d rows).2))
    end.
Proof.
  intros Hopen. unfold Sqlite.commit, Sqlite.check_open, bind.
  cbn [fst snd]. rewrite Hopen. cbn [fst snd].
  destruct (Sqlite.txn c) as [rows|]; [|done].
  by destruct (Sqlite.write_committed c d rows).
Qed.

Lemma closed_write_committed c d rows :
  Sqlite.closed (Sqlite.write_committed c d rows).1 = Sqlite.closed c.
Proof. unfold Sqlite.write_committed. by destruct (Sqlite.database c). Qed.

(** [_sync_mark] on a usable store, case by case. *)
Lemma _sync_mark_new s d rows topic event_id timestamp now :
  live s → records s d = Some rows →
  ¬ has_identity topic event_id rows →
  ∃ s' d',
    _sync_mark topic event_id timestamp now (s, d) = (Return true, (s', d'))
    ∧ live s'
    ∧ db_path s' = db_path s
    ∧ Sqlite.txn (conn s') = None
    ∧ Sqlite.committed (conn s') d' =
        Some (rows ++ [(topic, event_id, timestamp, now)]).
Proof.
  intros Hlive Hrec Hnew. apply pk_taken_false in Hnew.
  destruct s as [path c]. unfold live, records in *. cbn [conn db_path] in *.
  unfold _sync_mark, try_except, bind, on_conn. cbn [fst snd conn db_path].
  rewrite (execute_insert_eq _ _ rows) by done.
  cbn [row_topic row_event_id fst snd]. unfold row_topic, row_event_id.
  cbn [fst snd]. rewrite Hnew. cbn [fst snd conn db_path].
  rewrite commit_eq by done. cbn [Sqlite.txn Sqlite.set_txn].
  eexists _, _. split; [reflexivity|]. cbn [conn db_path].
  split_and!; try done.
  - cbn. by rewrite closed_write_committed.
  - apply committed_write_committed.
Qed.

Lemma _sync_mark_duplicate s d rows topic event_id timestamp now :
  live s → records s d = Some rows →
  has_identity topic event_id rows →
  ∃ s',
    _sync_mark topic event_id timestamp now (s, d) = (Return false, (s', d))
    ∧ live s'
    ∧ db_path s' = db_path s
    ∧ Sqlite.committed (conn s') d = Sqlite.committed (conn s) d
    ∧ records s' d = Some rows.
Proof.
  intros Hlive Hrec Hdup. apply pk_taken_spec in Hdup.
  destruct s as [path c]. unfold live, records in *. cbn [conn db_path] in *.
  unfold _sync_mark, try_except, bind, on_conn. cbn [fst snd conn db_path].
  rewrite (execute_insert_eq _ _ rows) by done.
  unfold row_topic, row_event_id. cbn [fst snd]. rewrite Hdup.
  cbn [fst snd conn db_path]. rewrite decide_True by done.
  eexists. split; [reflexivity|]. cbn. done.
Qed.

Lemma head_filter_is_Some {A} (P : A → Prop) `{∀ x, Decision (P x)} (l : list A) :
  head (filter P l) ≠ None ↔ Exists P l.
Proof.
  induction l as [|x l IH]; simpl.
  - split; [done | by inversion 1].
  - rewrite filter_cons. destruct (decide (P x)) as [HP|HP]; simpl.
    + split; [by left | done].
    + rewrite IH. split; [by right | by inversion 1].
Qed.

Lemma _sync_check_eq s d rows topic event_id :
  live s → records s d = Some rows →
  _sync_check topic event_id (s, d) =
    (Return (bool_decide (has_identity topic event_id rows)), (s, d)).
Proof.
  intros Hlive Hrec. destruct s as [path c].
  unfold live, records in *. cbn [conn db_path] in *.
  unfold _sync_check, bind, on_conn, ret. cbn [fst snd conn db_path].
  rewrite (execute_select_eq _ _ rows) by done.
  f_equal. f_equal. apply bool_decide_ext. unfold has_identity.
  rewrite <- head_filter_is_Some.
  assert (filter
     (λ r : row, bool_decide (row_topic r = topic)
                 && bool_decide (row_event_id r = event_id)) rows
     = filter (λ r, row_topic r = topic ∧ row_event_id r = event_id) rows) as ->;
    [|done].
  apply list_filter_iff. intros r.
  rewrite andb_True, !bool_decide_spec. done.
Qed.

Lemma filter_bool_decide {A} (P : A → Prop) `{∀ x, Decision (P x)} (l : list A) :
  filter (λ x, bool_decide (P x)) l = filter P l.
Proof. apply list_filter_iff. intros x. apply bool_decide_spec. Qed.

Lemma filter_always {A} (l : list A) : filter (λ _, true) l = l.
Proof.
  induction l as [|x l IH]; [done|].
  rewrite filter_cons_True by done. by rewrite IH.
Qed.

Lemma _sync_fetch_events_eq s d rows topic :
  live s → records s d = Some rows →
  _sync_fetch_events topic (s, d) =
    (Return (merge_sort Sqlite.processed_at_desc
               (if truthy topic
                then filter (λ r, Some (row_topic r) = topic) rows
                else rows)), (s, d)).
Proof.
  intros Hlive Hrec. destruct s as [path c].
  unfold live, records in *. cbn [conn db_path] in *.
  unfold _sync_fetch_events.
  destruct (truthy topic);
    unfold Sqlite.execute_select_order_by_processed_at_desc, bind, on_conn, ret;
    cbn [fst snd conn db_path];
    rewrite (execute_select_eq _ _ rows) by done.
  - cbn [fst snd]. do 3 f_equal.
    apply (filter_bool_decide (λ r : row, Some (row_topic r) = topic)).
  - cbn [fst snd]. do 3 f_equal. apply filter_always.
Qed.

(** C1. On a usable store, [mark_processed] returns [true] exactly when no
    record with the identity [(topic, event_id)] was stored, and then the
    record [(topic, event_id, timestamp, now)] is added, with [processed_at]
    the clock reading [now] of the store; it returns [false] exactly when a
    record with that identity was stored, and then the stored records and
    the persisted files are as before. In both cases it returns, it does
    not raise. *)
Theorem mark_processed_insert_if_absent
    (s : DeduplicationStore.t) (d : Disk) (rows : table)
    (topic event_id timestamp now : string) :
  live s → records s d = Some rows →
  ∃ was_new s' d',
    mark_processed topic event_id timestamp now (s, d)
      = (Return was_new, (s', d'))
    ∧ (was_new = true ↔ ¬ has_identity topic event_id rows)
    ∧ (was_new = false ↔ has_identity topic event_id rows)
    ∧ records s' d' =
        Some (if was_new
              then rows ++ [(topic, event_id, timestamp, now)]
              else rows)
    ∧ (was_new = false → d' = d)
    ∧ live s'.
Proof.
  intros Hlive Hrec. unfold mark_processed.
  destruct (decide (has_identity topic event_id rows)) as [Hdup|Hnew].
  - destruct (_sync_mark_duplicate s d rows topic event_id timestamp now)
      as (s' & Heq & Hlive' & _ & _ & Hrec'); [done..|].
    exists false, s', d. rewrite Heq. split_and!; done.
  - destruct (_sync_mark_new s d rows topic event_id timestamp now)
      as (s' & d' & Heq & Hlive' & _ & Htxn & Hcom); [done..|].
    assert (records s' d' = Some (rows ++ [(topic, event_id, timestamp, now)]))
      as Hrec' by (unfold records, Sqlite.view; by rewrite Htxn).
    exists true, s', d'. rewrite Heq. split_and!; done.
Qed.

Lemma mark_processed_insert_if_absent_witness :
  let s := {| db_path := "dedup_store.db";
              conn := Sqlite.connect "dedup_store.db" |} in
  let d : Disk := {[ "dedup_store.db" := [] ]} in
  live s ∧ records s d = Some [] ∧
  ∃ was_new s' d',
    mark_processed "user.created" "evt_123456" "2025-10-19T10:30:00Z"
                   "2025-10-19T10:30:01.250000+00:00" (s, d)
      = (Return was_new, (s', d'))
    ∧ (was_new = true ↔ ¬ has_identity "user.created" "evt_123456" [])
    ∧ (was_new = false ↔ has_identity "user.created" "evt_123456" [])
    ∧ records s' d' =
        Some (if was_new
              then [] ++ [("user.created", "evt_123456", "2025-10-19T10:30:00Z",
                           "2025-10-19T10:30:01.250000+00:00")]
              else [])
    ∧ (was_new = false → d' = d)
    ∧ live s'.
Proof.
  intros s d.
  split; [reflexivity|]. split; [reflexivity|].
  apply (mark_processed_insert_if_absent s d []); reflexivity.
Defined.

End Store.

(** ** The order of [ORDER BY processed_at DESC] *)

Section TextOrder.

Lemma text_le_trans : Transitive Sqlite.text_le.
Proof.
  unfold Sqlite.text_le, String.leb. intros a.
  induction a as [|x a IH]; intros [|y b] [|z c]; simpl; try done.
  unfold Ascii.compare.
  destruct (N.compare_spec (Ascii.N_of_ascii x) (Ascii.N_of_ascii y));
    destruct (N.compare_spec (Ascii.N_of_ascii y) (Ascii.N_of_ascii z));
    destruct (N.compare_spec (Ascii.N_of_ascii x) (Ascii.N_of_ascii z));
    try done; try lia.
  apply IH.
Qed.

Lemma text_le_total : Total Sqlite.text_le.
Proof.
  intros a b. unfold Sqlite.text_le.
  destruct (String.leb_total a b) as [H|H]; rewrite H; auto.
Qed.

Global Instance processed_at_desc_trans : Transitive Sqlite.processed_at_desc.
Proof.
  intros r1 r2 r3 H12 H23. unfold Sqlite.processed_at_desc in *.
  by eapply text_le_trans.
Qed.

Global Instance processed_at_desc_total : Total Sqlite.processed_at_desc.
Proof. intros r1 r2. unfold Sqlite.processed_at_desc. apply text_le_total. Qed.

End TextOrder.

(** ** The stretches of [publish] and of the consumers *)

Section Stretches.
Import DeduplicationStore EventAggregator Interleaving.

Lemma ask_store_eq a d rows event :
  live (dedup_store a) → records (dedup_store a) d = Some rows →
  ask_store event (a, d) = (Return (bool_decide (known rows event)), (a, d)).
Proof.
  intros Hlive Hrec. destruct a as [s q st rn ts]. cbn [dedup_store] in *.
  unfold ask_store, on_store, is_processed. cbn [fst snd dedup_store].
  by rewrite (_sync_check_eq _ _ rows).
Qed.

Lemma after_check_eq dup event result a d :
  after_check dup event result (a, d) =
    (Return (resume_result dup result), (resume_agg dup event a, d)).
Proof. by destruct dup. Qed.

Lemma to_next_check_eq rest result a d :
  to_next_check rest result (a, d) =
    (Return (next rest result a).1, ((next rest result a).2, d)).
Proof. by destruct rest. Qed.

Lemma count_outcome_eq was_new a d :
  count_outcome was_new (a, d) = (Return (), (count_agg was_new a, d)).
Proof. by destruct was_new. Qed.

(** The insert of a consumer on a usable store. *)
Lemma mark_eq a d rows event now :
  live (dedup_store a) → records (dedup_store a) d = Some rows →
  ∃ s' d',
    mark event now (a, d) =
      (Return (negb (bool_decide (known rows event))), (with_store s' a, d'))
    ∧ live s'
    ∧ records s' d' =
        Some (if bool_decide (known rows event) then rows
              else rows ++ [(Event.topic event, Event.event_id event,
                             Event.timestamp event, now)]).
Proof.
  intros Hlive Hrec. unfold mark, on_store, mark_processed, known.
  cbn [fst snd].
  destruct (decide (has_identity (Event.topic event) (Event.event_id event) rows))
    as [Hdup|Hnew].
  - destruct (_sync_mark_duplicate (dedup_store a) d rows (Event.topic event)
                (Event.event_id event) (Event.timestamp event) now)
      as (s' & Heq & Hlive' & _ & _ & Hrec'); [done..|].
    exists s', d. rewrite Heq, bool_decide_eq_true_2 by done. done.
  - destruct (_sync_mark_new (dedup_store a) d rows (Event.topic event)
                (Event.event_id event) (Event.timestamp event) now)
      as (s' & d' & Heq & Hlive' & _ & Htxn & Hcom); [done..|].
    exists s', d'. rewrite Heq, bool_decide_eq_false_2 by done.
    split_and!; [done..|]. unfold records, Sqlite.view. by rewrite Htxn.
Qed.

End Stretches.

(** ** Every scheduled stretch is a [step] *)

Section Steps.
Import DeduplicationStore EventAggregator Interleaving.

Lemma exec_step a sys sys' :
  usable sys → exec a sys = Some sys' → step sys a sys'.
Proof.
  intros [Hlive [rows Hrows]] Hexec.
  destruct sys as [ag d cs]. unfold stored in Hrows. cbn [agg disk calls] in *.
  destruct a as [evs|i|j now]; unfold exec in Hexec; cbn [agg disk calls] in Hexec.
  - unfold settle in Hexec. rewrite to_next_check_eq in Hexec.
    inversion Hexec; subst. apply (step_publish (mk_system ag d cs)).
  - destruct (cs !! i) as [[evs st]|] eqn:Hi; [|done]. cbn in Hexec.
    destruct st as [event rest result|dup event rest result| |]; cbn in Hexec;
      [| |done..].
    + unfold settle, bind in Hexec.
      rewrite (ask_store_eq _ _ rows) in Hexec by done.
      inversion Hexec; subst.
      by apply (step_check (mk_system ag d cs) i evs event rest result rows).
    + unfold settle, bind in Hexec.
      rewrite after_check_eq, to_next_check_eq in Hexec.
      inversion Hexec; subst.
      by apply (step_resume (mk_system ag d cs) i evs dup event rest result).
  - destruct (consumer_tasks ag !! j) as [k|] eqn:Hj; [|done]. cbn in Hexec.
    destruct k as [| |event|event was_new| |]; cbn in Hexec; [..|done].
    + inversion Hexec; subst.
      apply (step_loop (mk_system ag d cs) j now Created); auto.
    + destruct (queue ag) as [|event q] eqn:Hq.
      * unfold settle, bind, get, ret in Hexec. cbn in Hexec. rewrite Hq in Hexec.
        inversion Hexec; subst.
        apply (step_loop (mk_system ag d cs) j now Waiting); auto.
      * unfold settle, bind, get, ret in Hexec. cbn in Hexec. rewrite Hq in Hexec.
        cbn in Hexec. inversion Hexec; subst.
        by apply (step_get (mk_system ag d cs) j now event q).
    + destruct (mark_eq ag d rows event now) as (s' & d' & Heq & Hlive' & Hrec');
        [done..|].
      unfold settle, bind in Hexec. rewrite Heq in Hexec. cbn in Hexec.
      inversion Hexec; subst.
      by apply (step_mark (mk_system ag d cs) j event now rows s' d').
    + unfold settle, bind in Hexec. rewrite count_outcome_eq in Hexec.
      destruct was_new; cbn in Hexec; inversion Hexec; subst.
      * by apply (step_count (mk_system ag d cs) j now event true).
      * by apply (step_count (mk_system ag d cs) j now event false).
    + inversion Hexec; subst.
      apply (step_loop (mk_system ag d cs) j now Sleeping); auto.
Qed.

End Steps.

(** ** Sums over the calls and the tasks *)

Section Totals.
Import Interleaving.
Context {A : Type} (f : A → Z).

Lemma total_app (l1 l2 : list A) : total f (l1 ++ l2) = total f l1 + total f l2.
Proof. induction l1 as [|x l1 IH]; simpl; [done | rewrite IH; lia]. Qed.

Lemma total_nil : total f [] = 0.
Proof. done. Qed.

Lemma total_singleton (x : A) : total f [x] = f x.
Proof. simpl. lia. Qed.

Lemma total_insert (l : list A) (i : nat) (x y : A) :
  l !! i = Some x → total f (<[i := y]> l) = total f l - f x + f y.
Proof.
  revert i. induction l as [|z l IH]; intros [|i] Hi; simpl in *; try done.
  - inversion Hi; subst. lia.
  - rewrite (IH i Hi). lia.
Qed.

Lemma total_zero (l : list A) : Forall (λ x, f x = 0) l → total f l = 0.
Proof. induction 1 as [|x l Hx _ IH]; simpl; [done | lia]. Qed.

Lemma total_ext (g : A → Z) (l : list A) :
  Forall (λ x, f x = g x) l → total f l = total g l.
Proof. induction 1 as [|x l Hx _ IH]; simpl; [done | lia]. Qed.

End Totals.

Arguments Interleaving.total : simpl never.

(** ** Invariants of the schedule *)

Section Invariants.
Import DeduplicationStore EventAggregator Interleaving.

Lemma step_usable sys a sys' : step sys a sys' → usable sys → usable sys'.
Proof.
  intros Hstep [Hlive Hsome]. unfold usable, stored in *.
  destruct Hstep; cbn [agg disk calls]; try done.
  - by destruct evs.
  - subst n. by destruct rest, dup.
  - subst a. by destruct was_new.
Qed.

Lemma holding_loop_head a : holding (loop_head a) = 0.
Proof. unfold loop_head. by destruct (_ || _). Qed.

(** Reduce the projections of an updated aggregator, and nothing else. *)
Ltac project :=
  cbn [agg disk calls events at_
       dedup_store queue stats running consumer_tasks
       set_stats set_queue set_running set_consumer_tasks with_store
       count_agg resume_agg next fst snd
       received unique_processed duplicate_dropped start_time
       incr_received incr_unique_processed incr_duplicate_dropped] in *.

Lemma step_conserved sys a sys' : step sys a sys' → conserved sys → conserved sys'.
Proof.
  intros Hstep Hc. unfold conserved in *.
  destruct Hstep as [evs|i evs event rest result rows Hi Hrows
                    |i evs dup event rest result Hi n
                    |j now k Hj Hk|j now event q Hj Hq
                    |j event now rows s' d' Hj Hrows Hlive' Hrec'
                    |j now event was_new Hj a].
  - destruct evs; project; rewrite total_app, total_singleton; cbn; lia.
  - project. rewrite (total_insert _ _ _ _ _ Hi). cbn. lia.
  - subst n. destruct rest, dup; project;
      rewrite (total_insert _ _ _ _ _ Hi), ?length_app; cbn; lia.
  - project. rewrite (total_insert _ _ _ _ _ Hj), holding_loop_head.
    assert (holding k = 0) as -> by (destruct Hk as [->|[->|[-> _]]]; done).
    lia.
  - project. rewrite (total_insert _ _ _ _ _ Hj). rewrite Hq in Hc. cbn in *. lia.
  - project. rewrite (total_insert _ _ _ _ _ Hj). cbn. lia.
  - subst a. destruct was_new; project;
      rewrite (total_insert _ _ _ _ _ Hj), ?holding_loop_head; cbn; lia.
Qed.

Lemma run_conserved schedule sys sys' :
  usable sys → conserved sys → run schedule sys = Some sys' →
  usable sys' ∧ conserved sys'.
Proof.
  revert sys. induction schedule as [|a schedule IH]; intros sys Hu Hc Hrun.
  - by inversion Hrun; subst.
  - cbn in Hrun. destruct (exec a sys) as [sys1|] eqn:Hexec; [|done].
    cbn in Hrun. apply exec_step in Hexec; [|done].
    eauto using step_usable, step_conserved.
Qed.

Lemma started_usable sys : started sys → usable sys.
Proof. intros (_ & _ & _ & _ & _ & _ & Hlive & Hsome). by split. Qed.

Lemma started_conserved sys : started sys → conserved sys.
Proof.
  intros (Hcalls & Hq & Hr & Hu & Hd & Hts & _). unfold conserved.
  rewrite Hcalls, Hq, Hr, Hu, Hd.
  rewrite (total_zero holding).
  - by cbn.
  - eapply Forall_impl; [exact Hts|]. intros k Hk. unfold holding. by rewrite Hk.
Qed.

Lemma drained_nothing_held sys :
  drained sys →
  queue (agg sys) = []
  ∧ total checking (calls sys) = 0
  ∧ total holding (consumer_tasks (agg sys)) = 0.
Proof.
  intros (Hcalls & Hq & Hts). split_and!; [done|..]; apply total_zero.
  - eapply Forall_impl; [exact Hcalls|]. intros [evs st] Hc.
    unfold returned, checking in *. cbn in *. by destruct st.
  - eapply Forall_impl; [exact Hts|]. intros k Hk. unfold holding. by rewrite Hk.
Qed.

(** C3. From the started service, after any schedule of publish calls and
    consumer stretches that leaves the queue drained (every call returned,
    nothing queued, no consumer holding an event), [received] equals
    [unique_processed + duplicate_dropped]. *)
Theorem counter_conservation_after_drain
    (sys0 : System) (schedule : list action) (sys : System) :
  started sys0 →
  run schedule sys0 = Some sys →
  drained sys →
  received (stats (agg sys)) =
    unique_processed (stats (agg sys)) + duplicate_dropped (stats (agg sys)).
Proof.
  intros Hstart Hrun Hdrained.
  destruct (run_conserved schedule sys0 sys) as [_ Hc];
    [by apply started_usable | by apply started_conserved | done |].
  destruct (drained_nothing_held sys Hdrained) as (Hq & Hcalls & Hts).
  unfold conserved in Hc. rewrite Hq, Hcalls, Hts in Hc. cbn in Hc. lia.
Qed.

(** *** One identity, from an empty store *)

Lemma loop_head_cases a : loop_head a = Waiting ∨ loop_head a = Finished.
Proof. unfold loop_head. destruct (_ || _); auto. Qed.

Lemma known_nil event : ¬ known [] event.
Proof. unfold known, has_identity. by inversion 1. Qed.

(** A stored row of identity [k] makes an event of identity [k] known. *)
Lemma known_same_identity k (rows : table) event :
  Forall (λ r, (row_topic r, row_event_id r) = k) rows →
  Event.identity event = k → rows ≠ [] → known rows event.
Proof.
  intros Hall Hid Hne. destruct rows as [|r rows]; [done|].
  apply Forall_cons in Hall as [Hr _]. unfold known, has_identity.
  left. unfold Event.identity in Hid. rewrite <- Hid in Hr. by inversion Hr.
Qed.

Lemma step_single_identity k sys a sys' :
  step sys a sys' →
  Forall (λ e, Event.identity e = k) (published [a]) →
  single_identity k sys → single_identity k sys'.
Proof.
  intros Hstep Hpub [(rows0 & Hst & Hall & Hlen & Huniq & Hempty) Hq Hcs Hts Hrecv].
  unfold stored in *.
  destruct Hstep as [evs|i evs event rest result rows Hi Hrows
                    |i evs dup event rest result Hi n
                    |j now k' Hj Hk|j now event q Hj Hq'
                    |j event now rows s' d' Hj Hrows Hlive' Hrec'
                    |j now event was_new Hj a].
  all: unfold stored in *.
  - (* a new call *)
    cbn in Hpub. rewrite app_nil_r in Hpub.
    split; unfold stored.
    + exists rows0. destruct evs; project; split_and!; try done.
      * intros Hnil. destruct (Hempty Hnil) as (? & ? & ?).
        split_and!; try done. apply Forall_app; split; [done|].
        by repeat constructor.
      * intros Hnil. destruct (Hempty Hnil) as (? & ? & ?).
        split_and!; try done. apply Forall_app; split; [done|].
        by repeat constructor.
    + by destruct evs.
    + destruct evs; project; apply Forall_app; split; try done;
        apply Forall_singleton; unfold events_of_call; cbn; done.
    + by destruct evs.
    + destruct evs; project; rewrite total_app, total_singleton, Hrecv;
        unfold consumed; cbn [events at_ length]; lia.
  - (* the store answers a call *)
    pose proof (Forall_lookup_1 _ _ _ _ Hcs Hi) as Hev.
    rewrite Hst in Hrows. inversion Hrows; subst rows.
    split; unfold stored; project.
    + exists rows0. split_and!; try done.
      intros Hnil. destruct (Hempty Hnil) as (? & ? & ?).
      split_and!; try done. apply Forall_insert; [done|].
      unfold told_duplicate_call. cbn. subst rows0.
      by rewrite bool_decide_eq_false_2 by apply known_nil.
    + done.
    + by apply Forall_insert.
    + done.
    + rewrite (total_insert _ _ _ _ _ Hi), Hrecv. unfold consumed. cbn. lia.
  - (* a call goes on after the answer *)
    pose proof (Forall_lookup_1 _ _ _ _ Hcs Hi) as Hev.
    unfold events_of_call in Hev. cbn in Hev.
    apply Forall_cons in Hev as [Hevent Hrest].
    assert (rows0 = [] → dup = false) as Hdup.
    { intros Hnil. destruct (Hempty Hnil) as (_ & Hc & _).
      pose proof (Forall_lookup_1 _ _ _ _ Hc Hi) as Ht.
      unfold told_duplicate_call in Ht. cbn in Ht. by destruct dup. }
    subst n. split; unfold stored.
    + exists rows0. destruct rest, dup; project; split_and!; try done;
        intros Hnil; try (by specialize (Hdup Hnil));
        destruct (Hempty Hnil) as (? & ? & ?);
        (split_and!; try done; by apply Forall_insert).
    + destruct rest, dup; project; try done;
        apply Forall_app; split; try done; by repeat constructor.
    + destruct rest as [|e' rest'], dup; project;
        (apply Forall_insert; [done|]); unfold events_of_call; cbn; done.
    + by destruct rest, dup.
    + destruct rest, dup; project; rewrite (total_insert _ _ _ _ _ Hi), Hrecv;
        unfold consumed; cbn [events at_ length]; lia.
  - (* a consumer comes back to the head of its loop *)
    assert (marked_new k' = 0 ∧ told_duplicate_task k' = false) as [Hm Ht]
      by (destruct Hk as [->|[->|[-> _]]]; done).
    split; unfold stored; project; try done.
    + exists rows0. split_and!; try done.
      * rewrite (total_insert _ _ _ _ _ Hj), Hm.
        destruct (loop_head_cases (agg sys)) as [->| ->]; cbn; lia.
      * intros Hnil. destruct (Hempty Hnil) as (? & ? & ?).
        split_and!; try done. apply Forall_insert; [done|].
        by destruct (loop_head_cases (agg sys)) as [->| ->].
    + apply Forall_insert; [done|].
      by destruct (loop_head_cases (agg sys)) as [->| ->].
  - (* a consumer takes the head of the queue *)
    rewrite Hq' in Hq. apply Forall_cons in Hq as [Hevent Hq].
    split; unfold stored; project; try done.
    + exists rows0. split_and!; try done.
      * rewrite (total_insert _ _ _ _ _ Hj). cbn. lia.
      * intros Hnil. destruct (Hempty Hnil) as (? & ? & ?).
        split_and!; try done. by apply Forall_insert.
    + apply Forall_insert; [done|]. by repeat constructor.
  - (* the insert of a consumer *)
    pose proof (Forall_lookup_1 _ _ _ _ Hts Hj) as Hev.
    cbn in Hev. apply Forall_cons in Hev as [Hevent _].
    rewrite Hst in Hrows. inversion Hrows; subst rows.
    split; unfold stored; project; try done.
    + destruct (decide (known rows0 event)) as [Hknown|Hnew].
      * rewrite bool_decide_eq_true_2 in Hrec' |- * by done.
        exists rows0. split_and!; try done.
        -- rewrite (total_insert _ _ _ _ _ Hj). cbn. lia.
        -- intros Hnil. subst rows0. by apply known_nil in Hknown.
      * rewrite bool_decide_eq_false_2 in Hrec' |- * by done.
        assert (rows0 = []) as ->.
        { destruct (decide (rows0 = [])) as [|Hne]; [done|].
          exfalso. apply Hnew. by eapply known_same_identity. }
        eexists. split; [exact Hrec'|]. split_and!; try done.
        -- by repeat constructor.
        -- rewrite (total_insert _ _ _ _ _ Hj). cbn in *. lia.
    + apply Forall_insert; [done|]. by repeat constructor.
  - (* the count after the insert *)
    subst a.
    assert (rows0 = [] → was_new = true) as Hnew.
    { intros Hnil. destruct (Hempty Hnil) as (_ & _ & Ht).
      pose proof (Forall_lookup_1 _ _ _ _ Ht Hj) as Ht'. cbn in Ht'.
      by destruct was_new. }
    split; unfold stored.
    + exists rows0. destruct was_new; project; split_and!; try done.
      * rewrite (total_insert _ _ _ _ _ Hj). cbn. lia.
      * intros Hnil. destruct (Hempty Hnil) as (? & ? & ?).
        split_and!; try done. by apply Forall_insert.
      * rewrite (total_insert _ _ _ _ _ Hj).
        destruct (loop_head_cases
                    (set_stats incr_duplicate_dropped (agg sys))) as [->| ->];
          cbn; lia.
      * intros Hnil. by specialize (Hnew Hnil).
    + by destruct was_new.
    + by destruct was_new.
    + destruct was_new; project; (apply Forall_insert; [done|]).
      * by repeat constructor.
      * by destruct (loop_head_cases
                       (set_stats incr_duplicate_dropped (agg sys))) as [->| ->].
    + by destruct was_new.
Qed.

Lemma published_cons a schedule :
  published (a :: schedule) = published [a] ++ published schedule.
Proof. destruct a; cbn; by rewrite ?app_nil_r. Qed.

(** The arguments of the calls add up to the published events. *)
Lemma step_arguments sys a sys' :
  step sys a sys' →
  total (λ c, Z.of_nat (length (events c))) (calls sys') =
    total (λ c, Z.of_nat (length (events c))) (calls sys)
    + Z.of_nat (length (published [a])).
Proof.
  intros Hstep.
  destruct Hstep as [evs|i evs event rest result rows Hi Hrows
                    |i evs dup event rest result Hi n
                    |j now k' Hj Hk|j now event q Hj Hq'
                    |j event now rows s' d' Hj Hrows Hlive' Hrec'
                    |j now event was_new Hj a]; project.
  - rewrite total_app, total_singleton. cbn. by rewrite app_nil_r.
  - rewrite (total_insert _ _ _ _ _ Hi). cbn. lia.
  - rewrite (total_insert _ _ _ _ _ Hi). cbn. lia.
  - cbn. lia.
  - cbn. lia.
  - cbn. lia.
  - cbn. lia.
Qed.

Lemma run_single_identity k schedule sys sys' :
  usable sys → single_identity k sys →
  Forall (λ e, Event.identity e = k) (published schedule) →
  run schedule sys = Some sys' →
  single_identity k sys'
  ∧ total (λ c, Z.of_nat (length (events c))) (calls sys') =
      total (λ c, Z.of_nat (length (events c))) (calls sys)
      + Z.of_nat (length (published schedule)).
Proof.
  revert sys. induction schedule as [|a schedule IH]; intros sys Hu Hs Hpub Hrun.
  - inversion Hrun; subst. split; [done|]. cbn. lia.
  - cbn in Hrun. destruct (exec a sys) as [sys1|] eqn:Hexec; [|done].
    cbn in Hrun. apply exec_step in Hexec; [|done].
    rewrite published_cons in Hpub. apply Forall_app in Hpub as [Ha Hrest].
    destruct (IH sys1) as [Hs' Hargs];
      [by eapply step_usable | by eapply step_single_identity | done..|].
    split; [done|].
    rewrite (published_cons a schedule), length_app.
    rewrite Hargs, (step_arguments _ _ _ Hexec). lia.
Qed.

Lemma started_single_identity k sys :
  started sys → stored sys = Some [] → single_identity k sys.
Proof.
  intros (Hcalls & Hq & Hr & Hu & Hd & Hts & _) Hst.
  assert (Forall (λ t, events_of_task t = []) (consumer_tasks (agg sys))) as Hev.
  { eapply Forall_impl; [exact Hts|]. by intros []. }
  split.
  - exists []. split_and!; try done.
    + cbn. lia.
    + rewrite Hu, (total_zero marked_new); [done|].
      eapply Forall_impl; [exact Hts|]. by intros [| | |? []| |].
    + intros _. split_and!; [done|by rewrite Hcalls|].
      eapply Forall_impl; [exact Hts|]. by intros [| | |? []| |].
  - by rewrite Hq.
  - by rewrite Hcalls.
  - eapply Forall_impl; [exact Hev|]. intros t ->. done.
  - by rewrite Hr, Hcalls.
Qed.

(** C2. From the started service over an empty store, with counters at
    zero: when the events handed to [publish], over any number of calls and
    under any schedule of the calls and the consumers, all have one
    identity and are [N >= 1] in number, then once the queue is drained
    [unique_processed = 1] and [duplicate_dropped = N - 1]. *)
Theorem idempotency_after_drain
    (k : string * string) (sys0 : System) (schedule : list action)
    (sys : System) :
  started sys0 →
  stored sys0 = Some [] →
  Forall (λ e, Event.identity e = k) (published schedule) →
  (1 ≤ length (published schedule))%nat →
  run schedule sys0 = Some sys →
  drained sys →
  unique_processed (stats (agg sys)) = 1
  ∧ duplicate_dropped (stats (agg sys))
    = Z.of_nat (length (published schedule)) - 1.
Proof.
  intros Hstart Hst Hpub HN Hrun Hdrained.
  pose proof (started_usable _ Hstart) as Hu.
  destruct (run_conserved schedule sys0 sys) as [_ Hc];
    [done | by apply started_conserved | done |].
  destruct (run_single_identity k schedule sys0 sys) as [Hs Hargs];
    [done | by apply started_single_identity | done..|].
  destruct (drained_nothing_held sys Hdrained) as (Hq & Hcalls & Hts).
  unfold conserved in Hc. rewrite Hq, Hcalls, Hts in Hc. cbn in Hc.
  destruct Hs as [(rows & _ & _ & Hlen & Huniq & Hempty) _ _ _ Hrecv].
  destruct Hdrained as (Hret & _ & Hheld).
  rewrite (total_zero marked_new) in Huniq.
  2:{ eapply Forall_impl; [exact Hheld|]. by intros [| | |? []| |]. }
  rewrite (total_ext consumed (λ c, Z.of_nat (length (events c)))) in Hrecv.
  2:{ eapply Forall_impl; [exact Hret|]. intros [evs st] Hc'.
      unfold returned, consumed in *. cbn in *. destruct st; try done. lia. }
  destruct Hstart as (Hcalls0 & _). rewrite Hcalls0, total_nil in Hargs.
  destruct rows as [|r rows].
  - destruct (Hempty eq_refl) as (Hd & _). cbn in Huniq. lia.
  - cbn in Hlen, Huniq. lia.
Qed.

Lemma scenario_started : started Scenario.sys0.
Proof. vm_compute. split_and!; try done; [by repeat constructor | by eexists]. Qed.

Lemma scenario_run : run Scenario.schedule Scenario.sys0 = Some Scenario.final.
Proof. vm_compute. reflexivity. Qed.

Lemma scenario_drained : drained Scenario.final.
Proof. vm_compute. split_and!; try done; by repeat constructor. Qed.

Lemma counter_conservation_after_drain_witness :
  started Scenario.sys0
  ∧ run Scenario.schedule Scenario.sys0 = Some Scenario.final
  ∧ drained Scenario.final
  ∧ received (stats (agg Scenario.final)) =
      unique_processed (stats (agg Scenario.final))
      + duplicate_dropped (stats (agg Scenario.final)).
Proof.
  split_and!;
    [exact scenario_started | exact scenario_run | exact scenario_drained |].
  exact (counter_conservation_after_drain
           Scenario.sys0 Scenario.schedule Scenario.final
           scenario_started scenario_run scenario_drained).
Defined.

Lemma scenario_published :
  Forall (λ e, Event.identity e = ("test.topic", "evt_001"))
         (published Scenario.schedule).
Proof. vm_compute. by repeat constructor. Qed.

Lemma idempotency_after_drain_witness :
  started Scenario.sys0
  ∧ stored Scenario.sys0 = Some []
  ∧ Forall (λ e, Event.identity e = ("test.topic", "evt_001"))
           (published Scenario.schedule)
  ∧ (1 ≤ length (published Scenario.schedule))%nat
  ∧ run Scenario.schedule Scenario.sys0 = Some Scenario.final
  ∧ drained Scenario.final
  ∧ unique_processed (stats (agg Scenario.final)) = 1
  ∧ duplicate_dropped (stats (agg Scenario.final))
    = Z.of_nat (length (published Scenario.schedule)) - 1.
Proof.
  assert (stored Scenario.sys0 = Some []) as Hst by (vm_compute; reflexivity).
  assert (1 ≤ length (published Scenario.schedule))%nat as HN by (cbn; lia).
  split_and!;
    [exact scenario_started | exact Hst | exact scenario_published | exact HN
    | exact scenario_run | exact scenario_drained | |];
    apply (idempotency_after_drain ("test.topic", "evt_001")
             Scenario.sys0 Scenario.schedule Scenario.final
             scenario_started Hst scenario_published HN
             scenario_run scenario_drained).
Defined.

End Invariants.

(** ** [publish], run without another task in between *)

Section Publish.
Import DeduplicationStore EventAggregator Interleaving.

Lemma publish_event_eq a d rows event result :
  live (dedup_store a) → records (dedup_store a) d = Some rows →
  publish_event event result (a, d) =
    (Return (resume_result (bool_decide (known rows event)) result),
     (resume_agg (bool_decide (known rows event)) event
                 (set_stats incr_received a), d)).
Proof.
  intros Hlive Hrec. unfold publish_event, bind, count_received, update, modify.
  cbn [fst snd]. rewrite (ask_store_eq _ _ rows) by done.
  apply after_check_eq.
Qed.

(** The loop of [publish] over a usable store, in closed form. *)
Lemma publish_loop_spec d rows events : ∀ result a,
  live (dedup_store a) → records (dedup_store a) d = Some rows →
  ∃ result' a',
    publish_loop events result (a, d) = (Return result', (a', d))
    ∧ dedup_store a' = dedup_store a
    ∧ running a' = running a
    ∧ consumer_tasks a' = consumer_tasks a
    ∧ queue a' = queue a ++ filter (λ e, ¬ known rows e) events
    ∧ received (stats a') = received (stats a) + Z.of_nat (length events)
    ∧ unique_processed (stats a') = unique_processed (stats a)
    ∧ start_time (stats a') = start_time (stats a)
    ∧ duplicate_dropped (stats a')
      = duplicate_dropped (stats a)
        + Z.of_nat (length (filter (known rows) events))
    ∧ duplicates_immediate result'
      = duplicates_immediate result
        + Z.of_nat (length (filter (known rows) events))
    ∧ rejected result'
      = rejected result + Z.of_nat (length (filter (known rows) events))
    ∧ accepted result'
      = accepted result
        + Z.of_nat (length (filter (λ e, ¬ known rows e) events)).
Proof.
  induction events as [|event events IH]; intros result a Hlive Hrec.
  - exists result, a. cbn. rewrite app_nil_r. split_and!; try done; lia.
  - cbn [publish_loop]. unfold bind.
    rewrite (publish_event_eq _ _ rows) by done.
    set (b := bool_decide (known rows event)).
    set (a1 := resume_agg b event (set_stats incr_received a)).
    assert (dedup_store a1 = dedup_store a) as Hs by (subst a1; by destruct b).
    destruct (IH (resume_result b result) a1)
      as (result' & a' & Heq & Hs' & Hr' & Ht' & Hq' & Hrecv' & Hu' & Hst'
          & Hd' & Hdi' & Hrej' & Hacc'); [by rewrite Hs..|].
    exists result', a'. rewrite Heq.
    rewrite Hs', Hr', Ht', Hq', Hrecv', Hu', Hst', Hd', Hdi', Hrej', Hacc'.
    rewrite !filter_cons. subst a1 b.
    destruct (decide (known rows event)) as [Hk|Hk].
    + rewrite bool_decide_eq_true_2 by done.
      rewrite decide_False by tauto. cbn.
      split_and!; try done; lia.
    + rewrite bool_decide_eq_false_2 by done.
      rewrite decide_True by done. cbn. rewrite <- app_assoc. cbn.
      split_and!; try done; lia.
Qed.

(** The stretches of a call that runs alone add up to [publish]. *)
Lemma exec_checking sys i evs event rest result rows :
  live (dedup_store (agg sys)) → stored sys = Some rows →
  calls sys !! i = Some {| events := evs; at_ := Checking event rest result |} →
  exec (CallStep i) sys =
    Some {| agg := agg sys; disk := disk sys;
            calls := <[i := {| events := evs;
                               at_ := Checked (bool_decide (known rows event))
                                              event rest result |}]> (calls sys) |}.
Proof.
  intros Hlive Hrows Hi. destruct sys as [ag d cs]. unfold stored in Hrows.
  cbn [agg disk calls] in *. unfold exec. cbn [agg disk calls].
  rewrite Hi. cbn. unfold settle, bind.
  by rewrite (ask_store_eq _ _ rows).
Qed.

Lemma exec_checked sys i evs dup event rest result :
  calls sys !! i
    = Some {| events := evs; at_ := Checked dup event rest result |} →
  exec (CallStep i) sys =
    Some {| agg := (next rest (resume_result dup result)
                         (resume_agg dup event (agg sys))).2;
            disk := disk sys;
            calls := <[i := {| events := evs;
                               at_ := (next rest (resume_result dup result)
                                            (resume_agg dup event (agg sys))).1 |}]>
                       (calls sys) |}.
Proof.
  intros Hi. destruct sys as [ag d cs].
  cbn [agg disk calls] in *. unfold exec. cbn [agg disk calls].
  rewrite Hi. cbn. unfold settle, bind.
  by rewrite after_check_eq, to_next_check_eq.
Qed.

Lemma run_alone rest : ∀ event result sys i evs rows,
  live (dedup_store (agg sys)) → stored sys = Some rows →
  calls sys !! i = Some {| events := evs; at_ := Checking event rest result |} →
  ∃ result' a',
    publish_loop rest
      (resume_result (bool_decide (known rows event)) result)
      (resume_agg (bool_decide (known rows event)) event (agg sys), disk sys)
      = (Return result', (a', disk sys))
    ∧ run (alone i (S (length rest))) sys =
        Some {| agg := a'; disk := disk sys;
                calls := <[i := {| events := evs; at_ := Returned result' |}]>
                           (calls sys) |}.
Proof.
  induction rest as [|event' rest IH]; intros event result sys i evs rows
    Hlive Hrows Hi.
  - eexists _, _. split; [reflexivity|]. cbn [alone length run].
    rewrite (exec_checking _ _ _ _ _ _ rows) by done. cbn [mbind option_bind].
    erewrite exec_checked
      by (cbn [calls]; apply list_lookup_insert_eq; by eapply lookup_lt_Some).
    cbn. by rewrite list_insert_insert_eq.
  - set (b := bool_decide (known rows event)).
    set (a1 := resume_agg b event (agg sys)).
    assert (dedup_store a1 = dedup_store (agg sys)) as Hs
      by (subst a1; by destruct b).
    set (sys2 := {| agg := set_stats incr_received a1; disk := disk sys;
                    calls := <[i := {| events := evs;
                                       at_ := Checking event' rest
                                                (resume_result b result) |}]>
                               (calls sys) |}).
    destruct (IH event' (resume_result b result) sys2 i evs rows)
      as (result' & a' & Hloop & Hrun).
    { subst sys2. cbn. by rewrite Hs. }
    { subst sys2. unfold stored in *. cbn. by rewrite Hs. }
    { subst sys2. cbn. apply list_lookup_insert_eq. by eapply lookup_lt_Some. }
    exists result', a'. split.
    + cbn [publish_loop]. unfold bind.
      rewrite (publish_event_eq _ _ rows)
        by (unfold stored in Hrows; by rewrite Hs).
      exact Hloop.
    + change (alone i (S (length (event' :: rest))))
        with (CallStep i :: CallStep i :: alone i (S (length rest))).
      cbn [run].
      rewrite (exec_checking _ _ _ _ _ _ rows) by done. cbn [mbind option_bind].
      erewrite exec_checked
        by (cbn [calls]; apply list_lookup_insert_eq; by eapply lookup_lt_Some).
      cbn [mbind option_bind next fst snd agg disk calls].
      rewrite list_insert_insert_eq. fold b a1. fold sys2.
      rewrite Hrun. subst sys2. cbn [agg disk calls].
      by rewrite list_insert_insert_eq.
Qed.

Lemma publish_runs_alone sys evs :
  usable sys →
  ∃ result a',
    publish evs (agg sys, disk sys) = (Return result, (a', disk sys))
    ∧ run (Publish evs :: alone (length (calls sys)) (length evs)) sys =
        Some {| agg := a'; disk := disk sys;
                calls := calls sys
                         ++ [{| events := evs; at_ := Returned result |}] |}.
Proof.
  intros [Hlive [rows Hrows]]. destruct evs as [|event rest].
  - exists result0, (agg sys). split; [done|]. by destruct sys.
  - set (sys1 := {| agg := set_stats incr_received (agg sys); disk := disk sys;
                    calls := calls sys
                             ++ [{| events := event :: rest;
                                    at_ := Checking event rest result0 |}] |}).
    destruct (run_alone rest event result0 sys1 (length (calls sys))
                (event :: rest) rows) as (result & a' & Hloop & Hrun).
    { done. }
    { done. }
    { subst sys1. cbn. by rewrite list_lookup_middle. }
    exists result, a'. split.
    + unfold publish. cbn [publish_loop]. unfold bind.
      rewrite (publish_event_eq _ _ rows) by done. exact Hloop.
    + change (alone (length (calls sys)) (length (event :: rest)))
        with (alone (length (calls sys)) (S (length rest))).
      cbn [run]. unfold exec at 1. unfold settle.
      rewrite to_next_check_eq. cbn [next fst snd mbind option_bind].
      fold sys1. rewrite Hrun. subst sys1. cbn [agg disk calls].
      f_equal. f_equal.
      rewrite insert_app_r_alt by done. by rewrite Nat.sub_diag.
Qed.

Lemma length_filter_split {A} (P : A → Prop) `{∀ x, Decision (P x)} (l : list A) :
  (length (filter P l) + length (filter (λ x, ¬ P x) l) = length l)%nat.
Proof.
  rewrite <- length_app. apply Permutation_length, filter_app_complement.
Qed.

(** C4. On a usable store holding [rows], [publish events] returns (it
    does not raise) after handling the events in list order: [received]
    grows by one per event; every event whose identity the store knows adds
    one to [duplicates_immediate], to [rejected] and to [duplicate_dropped]
    and does not enter the queue; every other event is appended to the
    queue, in list order, and adds one to [accepted]. *)
Theorem publish_gate
    (a : EventAggregator.t) (d : Disk) (rows : table) (events : list Event.t) :
  live (dedup_store a) → records (dedup_store a) d = Some rows →
  ∃ result a',
    publish events (a, d) = (Return result, (a', d))
    ∧ received (stats a') = received (stats a) + Z.of_nat (length events)
    ∧ duplicates_immediate result
      = Z.of_nat (length (filter (known rows) events))
    ∧ rejected result = Z.of_nat (length (filter (known rows) events))
    ∧ duplicate_dropped (stats a')
      = duplicate_dropped (stats a)
        + Z.of_nat (length (filter (known rows) events))
    ∧ queue a' = queue a ++ filter (λ e, ¬ known rows e) events
    ∧ accepted result
      = Z.of_nat (length (filter (λ e, ¬ known rows e) events))
    ∧ records (dedup_store a') d = Some rows.
Proof.
  intros Hlive Hrec. unfold publish.
  destruct (publish_loop_spec d rows events result0 a Hlive Hrec)
    as (result & a' & Heq & Hs & _ & _ & Hq & Hrecv & _ & _
        & Hd & Hdi & Hrej & Hacc).
  exists result, a'. cbn in Hdi, Hrej, Hacc.
  rewrite Hs. split_and!; try done; lia.
Qed.

Lemma publish_gate_witness :
  let a := agg Scenario.final in
  let d := disk Scenario.final in
  let rows := Scenario.final_rows in
  let events := [Scenario.e1; Scenario.e2] in
  live (dedup_store a) ∧ records (dedup_store a) d = Some rows ∧
  ∃ result a',
    publish events (a, d) = (Return result, (a', d))
    ∧ received (stats a') = received (stats a) + Z.of_nat (length events)
    ∧ duplicates_immediate result
      = Z.of_nat (length (filter (known rows) events))
    ∧ rejected result = Z.of_nat (length (filter (known rows) events))
    ∧ duplicate_dropped (stats a')
      = duplicate_dropped (stats a)
        + Z.of_nat (length (filter (known rows) events))
    ∧ queue a' = queue a ++ filter (λ e, ¬ known rows e) events
    ∧ accepted result
      = Z.of_nat (length (filter (λ e, ¬ known rows e) events))
    ∧ records (dedup_store a') d = Some rows.
Proof.
  intros a d rows events.
  assert (live (dedup_store a)) as Hlive by (vm_compute; reflexivity).
  assert (records (dedup_store a) d = Some rows) as Hrec
    by (vm_compute; reflexivity).
  split; [exact Hlive|]. split; [exact Hrec|].
  exact (publish_gate a d rows events Hlive Hrec).
Defined.

(** C10. On a usable store, the result of [publish events] satisfies
    [accepted + rejected = length events] and
    [rejected = duplicates_immediate]; the call adds [length events] to
    [received] and leaves [unique_processed] as it was. *)
Theorem publish_result_accounting
    (a : EventAggregator.t) (d : Disk) (rows : table) (events : list Event.t) :
  live (dedup_store a) → records (dedup_store a) d = Some rows →
  ∃ result a',
    publish events (a, d) = (Return result, (a', d))
    ∧ accepted result + rejected result = Z.of_nat (length events)
    ∧ rejected result = duplicates_immediate result
    ∧ received (stats a') = received (stats a) + Z.of_nat (length events)
    ∧ unique_processed (stats a') = unique_processed (stats a).
Proof.
  intros Hlive Hrec. unfold publish.
  destruct (publish_loop_spec d rows events result0 a Hlive Hrec)
    as (result & a' & Heq & _ & _ & _ & _ & Hrecv & Hu & _
        & _ & Hdi & Hrej & Hacc).
  exists result, a'. cbn in Hdi, Hrej, Hacc.
  pose proof (length_filter_split (known rows) events).
  split_and!; try done; lia.
Qed.

Lemma publish_result_accounting_witness :
  let a := agg Scenario.final in
  let d := disk Scenario.final in
  let rows := Scenario.final_rows in
  let events :=
    [Scenario.e1; Event.mk "test.topic" "evt_002" "2025-10-18T10:02:00Z" "test" []] in
  live (dedup_store a) ∧ records (dedup_store a) d = Some rows ∧
  ∃ result a',
    publish events (a, d) = (Return result, (a', d))
    ∧ accepted result + rejected result = Z.of_nat (length events)
    ∧ rejected result = duplicates_immediate result
    ∧ received (stats a') = received (stats a) + Z.of_nat (length events)
    ∧ unique_processed (stats a') = unique_processed (stats a).
Proof.
  intros a d rows events.
  assert (live (dedup_store a)) as Hlive by (vm_compute; reflexivity).
  assert (records (dedup_store a) d = Some rows) as Hrec
    by (vm_compute; reflexivity).
  split; [exact Hlive|]. split; [exact Hrec|].
  exact (publish_result_accounting a d rows events Hlive Hrec).
Defined.

End Publish.

(** ** Queries *)

Section Queries.
Import DeduplicationStore EventAggregator Interleaving.

Lemma get_events_eq a d rows topic :
  live (dedup_store a) → records (dedup_store a) d = Some rows →
  get_events topic (a, d) =
    (Return (record_of_row <$>
               merge_sort Sqlite.processed_at_desc
                 (if truthy topic
                  then filter (λ r, Some (row_topic r) = topic) rows
                  else rows)), (a, d)).
Proof.
  intros Hlive Hrec. destruct a as [s q st rn ts]. cbn [dedup_store] in *.
  unfold get_events, bind, on_store, get_processed_events.
  cbn [fst snd dedup_store].
  by rewrite (_sync_fetch_events_eq _ _ rows).
Qed.


Lemma two_topics_usable :
  live (dedup_store Scenario.two_topics.1)
  ∧ records (dedup_store Scenario.two_topics.1) Scenario.two_topics.2
    = Some Scenario.two_topics_rows.
Proof. split; vm_compute; reflexivity. Qed.




(** C9. The empty string as topic is no filter: [get_events (Some "")] and
    the store's [get_processed_events (Some "")] do what they do without a
    topic, and on a usable store holding [rows] they return the records of
    all topics. *)
Theorem get_events_empty_topic
    (a : EventAggregator.t) (d : Disk) (rows : table) :
  live (dedup_store a) → records (dedup_store a) d = Some rows →
  get_events (Some "") (a, d) = get_events None (a, d)
  ∧ get_processed_events (Some "") (dedup_store a, d)
    = get_processed_events None (dedup_store a, d)
  ∧ (∃ l, get_events (Some "") (a, d) = (Return l, (a, d))
          ∧ all_records rows l)
  ∧ (∃ l, get_processed_events (Some "") (dedup_store a, d)
            = (Return l, (dedup_store a, d))
          ∧ l ≡ₚ rows).
Proof.
  intros Hlive Hrec. split; [done|]. split; [done|]. split.
  - rewrite (get_events_eq _ _ rows) by done. cbn.
    eexists. split; [reflexivity|].
    unfold all_records. by rewrite merge_sort_Permutation.
  - unfold get_processed_events.
    rewrite (_sync_fetch_events_eq _ _ rows) by done. cbn.
    eexists. split; [reflexivity|]. apply merge_sort_Permutation.
Qed.

Lemma get_events_empty_topic_witness :
  let a := Scenario.two_topics.1 in
  let d := Scenario.two_topics.2 in
  let rows := Scenario.two_topics_rows in
  live (dedup_store a) ∧ records (dedup_store a) d = Some rows
  ∧ get_events (Some "") (a, d) = get_events None (a, d)
  ∧ get_processed_events (Some "") (dedup_store a, d)
    = get_processed_events None (dedup_store a, d)
  ∧ (∃ l, get_events (Some "") (a, d) = (Return l, (a, d))
          ∧ all_records rows l)
  ∧ (∃ l, get_processed_events (Some "") (dedup_store a, d)
            = (Return l, (dedup_store a, d))
          ∧ l ≡ₚ rows).
Proof.
  intros a d rows. destruct two_topics_usable as [Hlive Hrec].
  split; [exact Hlive|]. split; [exact Hrec|].
  exact (get_events_empty_topic a d rows Hlive Hrec).
Defined.

End Queries.

(** ** Durability *)

Section Durability.
Import DeduplicationStore.

Lemma settled_usable path rows s d :
  settled path rows s d → live s ∧ records s d = Some rows.
Proof.
  intros (_ & Hopen & Hdb & Hd & Htx). split; [done|].
  unfold records, Sqlite.view, Sqlite.committed.
  destruct Htx as [-> | ->]; [by rewrite Hdb | done].
Qed.

Lemma execute_delete_all_eq c d rows :
  Sqlite.closed c = false → Sqlite.view c d = Some rows →
  Sqlite.execute_delete_all (c, d) = (Return (), (Sqlite.set_txn c (Some []), d)).
Proof.
  intros Hopen Hview.
  unfold Sqlite.execute_delete_all, Sqlite.begin_if_needed, Sqlite.read_table,
    Sqlite.check_open, bind, modify, ret.
  cbn [fst snd]. rewrite Hopen. cbn [fst snd]. by rewrite Hview.
Qed.

Lemma _sync_get_stats_eq s d rows :
  live s → records s d = Some rows →
  ∃ st, _sync_get_stats (s, d) = (Return st, (s, d)).
Proof.
  intros Hlive Hrec. destruct s as [path c].
  unfold live, records in *. cbn [conn db_path] in *.
  unfold _sync_get_stats, bind, on_conn, ret. cbn [fst snd conn db_path].
  rewrite (execute_select_eq _ _ rows) by done. cbn [fst snd conn db_path].
  rewrite (execute_select_eq _ _ rows) by done. by eexists.
Qed.

Lemma mark_settled path rows s d topic event_id timestamp now :
  settled path rows s d →
  ∃ rows',
    settled path rows' (_sync_mark topic event_id timestamp now (s, d)).2.1
                       (_sync_mark topic event_id timestamp now (s, d)).2.2.
Proof.
  intros Hs. destruct (settled_usable _ _ _ _ Hs) as [Hlive Hrec].
  destruct Hs as (Hp & Hopen & Hdb & Hd & Htx).
  destruct s as [p [cl db tx]]. unfold live, records in *.
  cbn [conn db_path Sqlite.closed Sqlite.database Sqlite.txn] in *. subst p cl db.
  unfold _sync_mark, try_except, bind, on_conn. cbn [fst snd conn db_path].
  rewrite (execute_insert_eq _ _ rows) by done.
  destruct (Sqlite.pk_taken _ _ rows).
  - cbn [fst snd conn db_path]. rewrite decide_True by done.
    cbn. exists rows. unfold settled. cbn. split_and!; auto.
  - cbn [fst snd conn db_path]. rewrite commit_eq by done.
    cbn. exists (rows ++ [(topic, event_id, timestamp, now)]).
    unfold settled. cbn. rewrite lookup_insert_eq. split_and!; auto.
Qed.

Lemma clear_settled path rows s d :
  settled path rows s d →
  settled path [] (_sync_clear (s, d)).2.1 (_sync_clear (s, d)).2.2.
Proof.
  intros Hs. destruct (settled_usable _ _ _ _ Hs) as [Hlive Hrec].
  destruct Hs as (Hp & Hopen & Hdb & Hd & Htx).
  destruct s as [p [cl db tx]]. unfold live, records in *.
  cbn [conn db_path Sqlite.closed Sqlite.database Sqlite.txn] in *. subst p cl db.
  unfold _sync_clear, bind, on_conn. cbn [fst snd conn db_path].
  rewrite (execute_delete_all_eq _ _ rows) by done.
  cbn [fst snd conn db_path]. rewrite commit_eq by done.
  cbn. unfold settled. cbn. rewrite lookup_insert_eq. split_and!; auto.
Qed.

Lemma perform_settled path rows s d c :
  settled path rows s d →
  ∃ rows', settled path rows' (perform c (s, d)).1 (perform c (s, d)).2.
Proof.
  intros Hs. destruct (settled_usable _ _ _ _ Hs) as [Hlive Hrec].
  destruct c as [topic event_id|topic event_id timestamp now|topic| |];
    unfold perform.
  - unfold is_processed. rewrite (_sync_check_eq _ _ rows) by done. by exists rows.
  - by apply (mark_settled path rows).
  - unfold get_processed_events.
    rewrite (_sync_fetch_events_eq _ _ rows) by done. by exists rows.
  - unfold get_stats.
    destruct (_sync_get_stats_eq s d rows Hlive Hrec) as [st ->]. by exists rows.
  - exists []. by apply (clear_settled path rows).
Qed.

Lemma session_settled path cs : ∀ rows s d,
  settled path rows s d →
  ∃ rows', settled path rows' (session cs (s, d)).1 (session cs (s, d)).2.
Proof.
  induction cs as [|c cs IH]; intros rows s d Hs.
  - by exists rows.
  - destruct (perform_settled path rows s d c Hs) as [rows1 Hs1].
    cbn. destruct (perform c (s, d)) as [s1 d1]. by eapply IH.
Qed.

Lemma execute_create_table_eq c d :
  Sqlite.closed c = false → Sqlite.txn c = None →
  Sqlite.execute_create_table (c, d) =
    (Return (),
     match Sqlite.committed c d with
     | Some _ => (c, d)
     | None => Sqlite.write_committed c d []
     end).
Proof.
  intros Hopen Htxn.
  unfold Sqlite.execute_create_table, Sqlite.check_open, bind, Sqlite.view.
  cbn [fst snd]. rewrite Hopen. cbn [fst snd]. rewrite Htxn.
  by destruct (Sqlite.committed c d).
Qed.

Lemma execute_create_index_eq c d rows :
  Sqlite.closed c = false → Sqlite.view c d = Some rows →
  Sqlite.execute_create_index (c, d) = (Return (), (c, d)).
Proof.
  intros Hopen Hview.
  unfold Sqlite.execute_create_index, Sqlite.check_open, Sqlite.read_table,
    bind, ret.
  cbn [fst snd]. rewrite Hopen. cbn [fst snd]. by rewrite Hview.
Qed.

Lemma init_settled path d :
  Sqlite.is_private path = false →
  __init__ path d =
    (Return (),
     ({| db_path := path;
         conn := {| Sqlite.closed := false; Sqlite.database := Sqlite.File path;
                    Sqlite.txn := None |} |},
      match d !! path with
      | Some _ => d
      | None => <[path := []]> d
      end)).
Proof.
  intros Hpriv.
  unfold __init__, _init_db, on_conn, Sqlite.with_connection, Sqlite.connect.
  rewrite Hpriv. cbn [fst snd conn db_path].
  set (c0 := {| Sqlite.closed := false; Sqlite.database := Sqlite.File path;
                Sqlite.txn := None |}).
  set (d1 := match d !! path with Some _ => d | None => <[path := []]> d end).
  assert (Sqlite.execute_create_table (c0, d) = (Return (), (c0, d1))) as Hct.
  { rewrite execute_create_table_eq by done. subst d1.
    unfold Sqlite.committed, Sqlite.write_committed. cbn.
    by destruct (d !! path). }
  assert (is_Some (Sqlite.view c0 d1)) as [rows Hview].
  { unfold Sqlite.view, Sqlite.committed. cbn. subst d1.
    destruct (d !! path) as [rows|] eqn:Hd; [by rewrite Hd|].
    by rewrite lookup_insert_eq. }
  unfold bind at 1. unfold bind at 1. rewrite Hct.
  unfold bind at 1. rewrite (execute_create_index_eq _ _ rows) by done.
  rewrite commit_eq by done. cbn [Sqlite.txn c0].
  unfold bind, ret. rewrite commit_eq by done. done.
Qed.

Lemma close_settled path rows s d :
  settled path rows s d →
  close (s, d) =
    (Return (),
     ({| db_path := path;
         conn := {| Sqlite.closed := true; Sqlite.database := Sqlite.File path;
                    Sqlite.txn := None |} |}, d)).
Proof.
  intros (Hp & Hopen & Hdb & Hd & Htx).
  destruct s as [p [cl db tx]].
  cbn [conn db_path Sqlite.closed Sqlite.database Sqlite.txn] in *. subst p cl db.
  reflexivity.
Qed.

(** C6. An instance is constructed on a persisted location [path] (over
    whatever the disk holds), serves any session of calls and is closed; a
    fresh instance is then constructed on the same location. The fresh
    instance can be used and holds exactly the records the first one held
    when it was closed: [is_processed] returns [true] for every identity
    among them, and the query without topic returns them, unchanged. *)
Theorem durability_across_restart
    (path : string) (d0 : Disk) (cs : list store_call) :
  Sqlite.is_private path = false →
  let σ1 := (__init__ path d0).2 in
  let σ2 := session cs σ1 in
  let σ3 := (close σ2).2 in
  let σ4 := (__init__ (db_path σ3.1) σ3.2).2 in
  ∃ rows,
    records σ2.1 σ2.2 = Some rows
    ∧ live σ4.1
    ∧ records σ4.1 σ4.2 = Some rows
    ∧ (∀ topic event_id,
         has_identity topic event_id rows →
         is_processed topic event_id σ4 = (Return true, σ4))
    ∧ (∃ l, get_processed_events None σ4 = (Return l, σ4) ∧ l ≡ₚ rows).
Proof.
  intros Hpriv σ1 σ2 σ3 σ4.
  assert (∃ rows1, settled path rows1 σ1.1 σ1.2) as [rows1 Hs1].
  { subst σ1. rewrite init_settled by done. cbn.
    destruct (d0 !! path) as [rows1|] eqn:Hd.
    - exists rows1. unfold settled. cbn. split_and!; auto.
    - exists []. unfold settled. cbn. rewrite lookup_insert_eq.
      split_and!; auto. }
  destruct (session_settled path cs rows1 σ1.1 σ1.2 Hs1) as [rows Hs2].
  replace (σ1.1, σ1.2) with σ1 in Hs2 by (by destruct σ1).
  fold σ2 in Hs2.
  destruct (settled_usable _ _ _ _ Hs2) as [_ Hrec2].
  assert (σ3 = ({| db_path := path;
                   conn := {| Sqlite.closed := true;
                              Sqlite.database := Sqlite.File path;
                              Sqlite.txn := None |} |}, σ2.2)) as Hσ3.
  { subst σ3. replace σ2 with (σ2.1, σ2.2) at 1 by (by destruct σ2).
    by rewrite (close_settled path rows). }
  assert (σ2.2 !! path = Some rows) as Hd2 by (by destruct Hs2 as (_ & _ & _ & ? & _)).
  assert (σ4 = ({| db_path := path;
                   conn := {| Sqlite.closed := false;
                              Sqlite.database := Sqlite.File path;
                              Sqlite.txn := None |} |}, σ2.2)) as Hσ4.
  { subst σ4. rewrite Hσ3. cbn [fst snd db_path].
    rewrite init_settled by done. cbn [snd]. by rewrite Hd2. }
  assert (live σ4.1 ∧ records σ4.1 σ4.2 = Some rows) as [Hlive4 Hrec4].
  { rewrite Hσ4. split; [done|].
    unfold records, Sqlite.view, Sqlite.committed. cbn. exact Hd2. }
  exists rows. split_and!; try done.
  - intros topic event_id Hid.
    replace σ4 with (σ4.1, σ4.2) by (by destruct σ4).
    unfold is_processed. rewrite (_sync_check_eq _ _ rows) by done.
    by rewrite bool_decide_eq_true_2.
  - replace σ4 with (σ4.1, σ4.2) by (by destruct σ4).
    unfold get_processed_events.
    rewrite (_sync_fetch_events_eq _ _ rows) by done. cbn [truthy].
    eexists. split; [reflexivity|]. apply merge_sort_Permutation.
Qed.

Lemma durability_across_restart_witness :
  let path := "dedup_store.db" in
  let cs :=
    [ MarkProcessed "persist" "evt_persist_001" "2025-10-18T10:00:00Z"
                    "2025-10-18T10:00:00.350000+00:00";
      IsProcessed "persist" "evt_persist_001" ] in
  Sqlite.is_private path = false ∧
  let σ1 := (__init__ path ∅).2 in
  let σ2 := session cs σ1 in
  let σ3 := (close σ2).2 in
  let σ4 := (__init__ (db_path σ3.1) σ3.2).2 in
  ∃ rows,
    records σ2.1 σ2.2 = Some rows
    ∧ live σ4.1
    ∧ records σ4.1 σ4.2 = Some rows
    ∧ (∀ topic event_id,
         has_identity topic event_id rows →
         is_processed topic event_id σ4 = (Return true, σ4))
    ∧ (∃ l, get_processed_events None σ4 = (Return l, σ4) ∧ l ≡ₚ rows).
Proof.
  intros path cs.
  assert (Sqlite.is_private path = false) as Hpriv by reflexivity.
  split; [exact Hpriv|].
  exact (durability_across_restart path ∅ cs Hpriv).
Defined.

(** A private database is no persisted location: what an instance on
    [":memory:"] recorded is gone for the next one. *)
Remark memory_is_not_persisted :
  let σ1 := (__init__ ":memory:" ∅).2 in
  let σ2 := session [MarkProcessed "persist" "evt_persist_001"
                       "2025-10-18T10:00:00Z"
                       "2025-10-18T10:00:00.350000+00:00"] σ1 in
  let σ3 := (close σ2).2 in
  let σ4 := (__init__ (db_path σ3.1) σ3.2).2 in
  (is_processed "persist" "evt_persist_001" σ2).1 = Return true
  ∧ (is_processed "persist" "evt_persist_001" σ4).1 = Return false.
Proof. split; vm_compute; reflexivity. Qed.

End Durability.

(** ** Statistics and lifecycle *)

Section Lifecycle.
Import DeduplicationStore EventAggregator Interleaving.










Lemma cancel_cancel (ts : list task) : cancel <$> (cancel <$> ts) = cancel <$> ts.
Proof. induction ts as [|k ts IH]; [done|]. cbn. by rewrite IH. Qed.

Lemma stop_twice (σ : EventAggregator.St) :
  stop σ = (Return (), (stop σ).2)
  ∧ stop (stop σ).2 = (Return (), (stop σ).2).
Proof.
  destruct σ as [[[p [cl db tx]] q st rn ts] d].
  unfold stop, bind, update, modify, get, ret, on_store,
    DeduplicationStore.close, on_conn, Sqlite.close.
  destruct ts as [|k ts].
  - cbn. auto.
  - cbn. destruct cl; cbn; rewrite ?cancel_cancel; auto.
Qed.

Lemma close_twice (σ : DeduplicationStore.St) :
  DeduplicationStore.close (DeduplicationStore.close σ).2
  = (Return (), (DeduplicationStore.close σ).2).
Proof.
  destruct σ as [[p [cl db tx]] d].
  unfold DeduplicationStore.close, on_conn, Sqlite.close.
  by destruct cl.
Qed.

(** C8. [stop()] returns, it does not raise; a second [stop()], and any
    number of further ones, returns as well and leaves the aggregator, its
    store and the disk as the first left them. Closing a closed store
    raises nothing and changes nothing. *)
Theorem stop_idempotent (σ : EventAggregator.St) :
  stop σ = (Return (), (stop σ).2)
  ∧ stop (stop σ).2 = (Return (), (stop σ).2)
  ∧ (∀ n : nat, Nat.iter n (λ σ', (stop σ').2) (stop σ).2 = (stop σ).2)
  ∧ DeduplicationStore.close
      (DeduplicationStore.close (dedup_store σ.1, σ.2)).2
    = (Return (), (DeduplicationStore.close (dedup_store σ.1, σ.2)).2).
Proof.
  destruct (stop_twice σ) as [H1 H2].
  split_and!; [done | done | | apply close_twice].
  induction n as [|n IH]; [done|]. rewrite Nat.iter_succ, IH. by rewrite H2.
Qed.

End Lifecycle.

(** * Further properties of the store *)

Section StoreSessions.
Import DeduplicationStore TableModel.

Lemma has_identity_key topic event_id (rows : table) :
  has_identity topic event_id rows ↔ (topic, event_id) ∈ key <$> rows.
Proof.
  unfold has_identity. rewrite Exists_exists, list_elem_of_fmap.
  split.
  - intros (r & Hr & <- & <-). by exists r.
  - intros (r & Hk & Hr). exists r. split; [done|]. by inversion Hk.
Qed.

Lemma _sync_clear_eq s d rows :
  live s → records s d = Some rows →
  ∃ s' d', _sync_clear (s, d) = (Return (), (s', d'))
           ∧ live s' ∧ records s' d' = Some [].
Proof.
  intros Hlive Hrec. destruct s as [p c]. unfold live, records in *.
  cbn [conn db_path] in *.
  unfold _sync_clear, bind, on_conn. cbn [fst snd conn db_path].
  rewrite (execute_delete_all_eq _ _ rows) by done.
  cbn [fst snd conn db_path]. rewrite commit_eq by done.
  cbn [Sqlite.txn Sqlite.set_txn].
  eexists _, _. split; [reflexivity|]. cbn [conn db_path]. split.
  - cbn. by rewrite closed_write_committed.
  - apply view_write_committed.
Qed.

(** One call on a usable store does to the records what [effect] says. *)
Lemma perform_effect c s d rows :
  live s → records s d = Some rows →
  live (perform c (s, d)).1
  ∧ records (perform c (s, d)).1 (perform c (s, d)).2 = Some (effect c rows).
Proof.
  intros Hlive Hrec.
  destruct c as [topic event_id|topic event_id timestamp now|topic| |];
    unfold perform, effect.
  - unfold is_processed. by rewrite (_sync_check_eq _ _ rows).
  - unfold mark_processed.
    destruct (decide (has_identity topic event_id rows)) as [Hdup|Hnew].
    + destruct (_sync_mark_duplicate s d rows topic event_id timestamp now)
        as (s' & -> & Hlive' & _ & _ & Hrec'); done.
    + destruct (_sync_mark_new s d rows topic event_id timestamp now)
        as (s' & d' & -> & Hlive' & _ & Htxn & Hcom); [done..|].
      split; [done|]. cbn. unfold records, Sqlite.view. by rewrite Htxn.
  - unfold get_processed_events. by rewrite (_sync_fetch_events_eq _ _ rows).
  - unfold get_stats. by destruct (_sync_get_stats_eq s d rows Hlive Hrec) as [st ->].
  - unfold clear.
    by destruct (_sync_clear_eq s d rows Hlive Hrec) as (s' & d' & -> & ? & ?).
Qed.

Lemma session_effect cs : ∀ s d rows,
  live s → records s d = Some rows →
  live (session cs (s, d)).1
  ∧ records (session cs (s, d)).1 (session cs (s, d)).2
    = Some (foldl (λ rows c, effect c rows) rows cs).
Proof.
  induction cs as [|c cs IH]; intros s d rows Hlive Hrec; [done|].
  destruct (perform_effect c s d rows Hlive Hrec) as [Hlive' Hrec'].
  cbn [session foldl]. destruct (perform c (s, d)) as [s1 d1].
  by apply IH.
Qed.

Lemma effect_NoDup c (rows : table) :
  NoDup (key <$> rows) → NoDup (key <$> effect c rows).
Proof.
  intros Hnd. destruct c as [| topic event_id timestamp now| | |]; cbn;
    try done; [|constructor].
  destruct (decide (has_identity topic event_id rows)) as [Hdup|Hnew]; [done|].
  rewrite fmap_app. apply NoDup_app. split_and!; [done| |by apply NoDup_singleton].
  intros k Hk Hk'. apply list_elem_of_singleton in Hk'. subst k.
  apply Hnew. by apply has_identity_key.
Qed.

Lemma effect_prefix c (rows : table) :
  is_clear c = false → rows `prefix_of` effect c rows.
Proof.
  intros Hc. destruct c as [| topic event_id timestamp now| | |]; cbn;
    try done.
  destruct (decide (has_identity topic event_id rows)); [done|].
  by apply prefix_app_r.
Qed.

End StoreSessions.

Section StoreProperties.
Import DeduplicationStore TableModel.

Lemma store0_usable :
  live Examples.store0.1 ∧ records Examples.store0.1 Examples.store0.2 = Some [].
Proof. split; vm_compute; reflexivity. Qed.

Lemma store1_usable :
  live Examples.store1.1
  ∧ records Examples.store1.1 Examples.store1.2 = Some Examples.rows1.
Proof. split; vm_compute; reflexivity. Qed.

(** X1. On a usable store, a session of calls leaves the store usable and
    leaves the records that the calls, taken as functions of the records
    alone ([effect]), give one after the other: a mark appends its row
    unless the identity is stored, a clear empties, the reads change
    nothing. *)
Theorem session_follows_table_model
    (s : DeduplicationStore.t) (d : Disk) (rows : table) (cs : list store_call) :
  live s → records s d = Some rows →
  live (session cs (s, d)).1
  ∧ records (session cs (s, d)).1 (session cs (s, d)).2
    = Some (foldl (λ rows c, effect c rows) rows cs).
Proof. intros Hlive Hrec. by apply session_effect. Qed.

Lemma session_follows_table_model_witness :
  live Examples.store0.1
  ∧ records Examples.store0.1 Examples.store0.2 = Some []
  ∧ live (session Examples.calls (Examples.store0.1, Examples.store0.2)).1
  ∧ records (session Examples.calls (Examples.store0.1, Examples.store0.2)).1
            (session Examples.calls (Examples.store0.1, Examples.store0.2)).2
    = Some (foldl (λ rows c, effect c rows) [] Examples.calls).
Proof.
  destruct store0_usable as [Hlive Hrec].
  split; [exact Hlive|]. split; [exact Hrec|].
  exact (session_follows_table_model _ _ [] Examples.calls Hlive Hrec).
Defined.

(** X2. The primary key is kept: when the stored records have pairwise
    distinct identities [(topic, event_id)], they still have after any
    session of calls. *)
Theorem primary_key_kept
    (s : DeduplicationStore.t) (d : Disk) (rows : table) (cs : list store_call) :
  live s → records s d = Some rows → NoDup (key <$> rows) →
  ∃ rows', records (session cs (s, d)).1 (session cs (s, d)).2 = Some rows'
           ∧ NoDup (key <$> rows').
Proof.
  intros Hlive Hrec Hnd.
  destruct (session_effect cs s d rows Hlive Hrec) as [_ Hrec'].
  eexists. split; [exact Hrec'|].
  clear Hrec Hrec'. revert rows Hnd.
  induction cs as [|c cs IH]; intros rows Hnd; [done|].
  cbn. by apply IH, effect_NoDup.
Qed.

Lemma primary_key_kept_witness :
  live Examples.store0.1
  ∧ records Examples.store0.1 Examples.store0.2 = Some []
  ∧ NoDup (key <$> ([] : table))
  ∧ ∃ rows',
      records (session Examples.calls (Examples.store0.1, Examples.store0.2)).1
              (session Examples.calls (Examples.store0.1, Examples.store0.2)).2
        = Some rows'
      ∧ NoDup (key <$> rows').
Proof.
  destruct store0_usable as [Hlive Hrec].
  assert (NoDup (key <$> ([] : table))) as Hnd by constructor.
  split; [exact Hlive|]. split; [exact Hrec|]. split; [exact Hnd|].
  exact (primary_key_kept _ _ [] Examples.calls Hlive Hrec Hnd).
Defined.

(** X3. Without a clear the records only grow at the end: after a session
    that holds no [clear()], the records stored before are still there, in
    place and unchanged, whatever was marked since. *)
Theorem records_append_only
    (s : DeduplicationStore.t) (d : Disk) (rows : table) (cs : list store_call) :
  live s → records s d = Some rows →
  Forall (λ c, is_clear c = false) cs →
  ∃ more, records (session cs (s, d)).1 (session cs (s, d)).2
          = Some (rows ++ more).
Proof.
  intros Hlive Hrec Hcs.
  destruct (session_effect cs s d rows Hlive Hrec) as [_ Hrec'].
  rewrite Hrec'. clear Hrec Hrec'.
  assert (rows `prefix_of` foldl (λ rows c, effect c rows) rows cs) as [more ->].
  { revert rows. induction Hcs as [|c cs Hc _ IH]; intros rows; [done|].
    cbn. etrans; [by apply effect_prefix|]. apply IH. }
  by exists more.
Qed.

Lemma records_append_only_witness :
  live Examples.store0.1
  ∧ records Examples.store0.1 Examples.store0.2 = Some []
  ∧ Forall (λ c, is_clear c = false) Examples.calls
  ∧ ∃ more,
      records (session Examples.calls (Examples.store0.1, Examples.store0.2)).1
              (session Examples.calls (Examples.store0.1, Examples.store0.2)).2
        = Some ([] ++ more).
Proof.
  destruct store0_usable as [Hlive Hrec].
  assert (Forall (λ c, is_clear c = false) Examples.calls) as Hcs
    by (repeat constructor).
  split; [exact Hlive|]. split; [exact Hrec|]. split; [exact Hcs|].
  exact (records_append_only _ _ [] Examples.calls Hlive Hrec Hcs).
Defined.

Lemma _sync_get_stats_explicit s d rows :
  live s → records s d = Some rows →
  get_stats (s, d) =
    (Return {| total_unique := Z.of_nat (length rows);
               topics := count_by_topic rows |}, (s, d)).
Proof.
  intros Hlive Hrec. destruct s as [path c].
  unfold live, records in *. cbn [conn db_path] in *.
  unfold get_stats, _sync_get_stats, bind, on_conn, ret.
  cbn [fst snd conn db_path].
  rewrite (execute_select_eq _ _ rows) by done. cbn [fst snd conn db_path].
  rewrite (execute_select_eq _ _ rows) by done. cbn [fst snd].
  do 2 f_equal. f_equal; [do 2 f_equal | f_equal]; apply filter_always.
Qed.

Lemma count_by_topic_lookup (rows : list row) (t : string) :
  count_by_topic rows !! t =
    match length (filter (λ r, row_topic r = t) rows) with
    | O => None
    | S n => Some (Z.of_nat (S n))
    end.
Proof.
  induction rows as [|r rows IH]; [done|].
  cbn [count_by_topic foldr]. fold (count_by_topic rows).
  rewrite filter_cons. destruct (decide (row_topic r = t)) as [->|Hne].
  - rewrite lookup_insert_eq, IH. cbn [length].
    destruct (length _); cbn; f_equal; lia.
  - by rewrite lookup_insert_ne.
Qed.

Lemma filter_nonempty_iff (rows : list row) (t : string) :
  length (filter (λ r, row_topic r = t) rows) ≠ 0%nat
  ↔ Exists (λ r, row_topic r = t) rows.
Proof.
  induction rows as [|r rows IH].
  - cbn. split; [done | by inversion 1].
  - rewrite filter_cons, Exists_cons.
    destruct (decide (row_topic r = t)); cbn.
    + split; [intros _; by left | done].
    + rewrite IH. split; [intros ?; by right | by intros [?|?]].
Qed.

Lemma has_identity_app topic event_id (rows : table) (r : row) :
  has_identity topic event_id (rows ++ [r])
  ↔ has_identity topic event_id rows ∨ key r = (topic, event_id).
Proof.
  rewrite !has_identity_key, fmap_app, elem_of_app. cbn.
  rewrite list_elem_of_singleton. split; (intros [?|?]; [by left | by right]).
Qed.

(** X4. After [mark_processed(topic, event_id, ...)] on a usable store,
    whatever it returned, [is_processed(topic, event_id)] returns true; for
    every other identity [is_processed] answers as before the mark. *)
Theorem mark_then_is_processed
    (s : DeduplicationStore.t) (d : Disk) (rows : table)
    (topic event_id timestamp now : string) :
  live s → records s d = Some rows →
  let σ' := (mark_processed topic event_id timestamp now (s, d)).2 in
  is_processed topic event_id σ' = (Return true, σ')
  ∧ ∀ topic' event_id',
      (topic', event_id') ≠ (topic, event_id) →
      (is_processed topic' event_id' σ').1
      = (is_processed topic' event_id' (s, d)).1.
Proof.
  intros Hlive Hrec σ'.
  destruct (perform_effect (MarkProcessed topic event_id timestamp now)
              s d rows Hlive Hrec) as [Hlive' Hrec'].
  cbn [perform] in Hlive', Hrec'. fold σ' in Hlive', Hrec'.
  replace σ' with (σ'.1, σ'.2) by (by destruct σ').
  unfold is_processed.
  rewrite (_sync_check_eq _ _ _ _ _ Hlive' Hrec'). split.
  - rewrite bool_decide_eq_true_2; [done|]. cbn.
    destruct (decide (has_identity topic event_id rows)); [done|].
    apply has_identity_app. by right.
  - intros topic' event_id' Hne.
    rewrite (_sync_check_eq _ _ _ _ _ Hlive' Hrec').
    rewrite (_sync_check_eq _ _ _ _ _ Hlive Hrec). cbn [fst]. f_equal.
    apply bool_decide_ext. cbn.
    destruct (decide (has_identity topic event_id rows)); [done|].
    rewrite has_identity_app. unfold key. cbn.
    split; [intros [?|Hk]; [done | congruence] | intros ?; by left].
Qed.

Lemma mark_then_is_processed_witness :
  live Examples.store1.1
  ∧ records Examples.store1.1 Examples.store1.2 = Some Examples.rows1
  ∧ let σ' := (mark_processed "orders" "evt_2" "2025-10-18T10:00:00Z"
                 "2025-10-18T10:00:02.000001+00:00"
                 (Examples.store1.1, Examples.store1.2)).2 in
    is_processed "orders" "evt_2" σ' = (Return true, σ')
    ∧ ∀ topic' event_id',
        (topic', event_id') ≠ ("orders", "evt_2") →
        (is_processed topic' event_id' σ').1
        = (is_processed topic' event_id'
             (Examples.store1.1, Examples.store1.2)).1.
Proof.
  destruct store1_usable as [Hlive Hrec].
  split; [exact Hlive|]. split; [exact Hrec|].
  exact (mark_then_is_processed _ _ Examples.rows1 "orders" "evt_2"
           "2025-10-18T10:00:00Z" "2025-10-18T10:00:02.000001+00:00"
           Hlive Hrec).
Defined.

(** X5. [clear()] on a usable store returns and empties it: afterwards
    [is_processed] is false for every identity, every query returns the
    empty list, the statistics are zero with no topic, and
    [mark_processed] of any identity returns true again. *)
Theorem clear_empties
    (s : DeduplicationStore.t) (d : Disk) (rows : table) :
  live s → records s d = Some rows →
  ∃ σ',
    clear (s, d) = (Return (), σ')
    ∧ (∀ topic event_id, is_processed topic event_id σ' = (Return false, σ'))
    ∧ (∀ topic, get_processed_events topic σ' = (Return [], σ'))
    ∧ get_stats σ' = (Return {| total_unique := 0; topics := ∅ |}, σ')
    ∧ (∀ topic event_id timestamp now,
         (mark_processed topic event_id timestamp now σ').1 = Return true).
Proof.
  intros Hlive Hrec. unfold clear.
  destruct (_sync_clear_eq s d rows Hlive Hrec) as (s' & d' & -> & Hlive' & Hrec').
  exists (s', d'). split_and!; [done|..].
  - intros topic event_id. unfold is_processed.
    rewrite (_sync_check_eq _ _ []) by done.
    rewrite bool_decide_eq_false_2; [done|]. by inversion 1.
  - intros topic. unfold get_processed_events.
    rewrite (_sync_fetch_events_eq _ _ []) by done. by destruct (truthy topic).
  - by rewrite (_sync_get_stats_explicit _ _ []).
  - intros topic event_id timestamp now. unfold mark_processed.
    destruct (_sync_mark_new s' d' [] topic event_id timestamp now)
      as (s2 & d2 & -> & _); [done..| |done]. by inversion 1.
Qed.

Lemma clear_empties_witness :
  live Examples.store1.1
  ∧ records Examples.store1.1 Examples.store1.2 = Some Examples.rows1
  ∧ ∃ σ',
      clear (Examples.store1.1, Examples.store1.2) = (Return (), σ')
      ∧ (∀ topic event_id, is_processed topic event_id σ' = (Return false, σ'))
      ∧ (∀ topic, get_processed_events topic σ' = (Return [], σ'))
      ∧ get_stats σ' = (Return {| total_unique := 0; topics := ∅ |}, σ')
      ∧ (∀ topic event_id timestamp now,
           (mark_processed topic event_id timestamp now σ').1 = Return true).
Proof.
  destruct store1_usable as [Hlive Hrec].
  split; [exact Hlive|]. split; [exact Hrec|].
  exact (clear_empties _ _ Examples.rows1 Hlive Hrec).
Defined.

(** X6. The statistics of a usable store agree with its queries:
    [total_unique] is the number of records, which is the length of the
    query without topic; a topic is a key of [topics] exactly when a record
    has it, and its count is the number of records of that topic, which for
    a non-empty topic is the length of the query by that topic. *)
Theorem stats_agree_with_queries
    (s : DeduplicationStore.t) (d : Disk) (rows : table) :
  live s → records s d = Some rows →
  ∃ st,
    get_stats (s, d) = (Return st, (s, d))
    ∧ total_unique st = Z.of_nat (length rows)
    ∧ (∃ l, get_processed_events None (s, d) = (Return l, (s, d))
            ∧ Z.of_nat (length l) = total_unique st)
    ∧ (∀ t, is_Some (topics st !! t) ↔ Exists (λ r, row_topic r = t) rows)
    ∧ (∀ t, default 0 (topics st !! t)
            = Z.of_nat (length (filter (λ r, row_topic r = t) rows)))
    ∧ (∀ t, t ≠ "" →
         ∃ l, get_processed_events (Some t) (s, d) = (Return l, (s, d))
              ∧ Z.of_nat (length l) = default 0 (topics st !! t)).
Proof.
  intros Hlive Hrec. eexists.
  split; [by apply (_sync_get_stats_explicit _ _ rows)|].
  cbn [total_unique topics].
  assert (∀ t, default 0 (count_by_topic rows !! t)
               = Z.of_nat (length (filter (λ r, row_topic r = t) rows))) as Hcount.
  { intros t. rewrite count_by_topic_lookup. by destruct (length _). }
  split_and!; [done|..].
  - unfold get_processed_events.
    rewrite (_sync_fetch_events_eq _ _ rows) by done. cbn [truthy].
    eexists. split; [reflexivity|].
    by rewrite (Permutation_length (merge_sort_Permutation _ _)).
  - intros t. rewrite count_by_topic_lookup, <- filter_nonempty_iff.
    destruct (length _); cbn; split; done.
  - exact Hcount.
  - intros t Ht. unfold get_processed_events.
    rewrite (_sync_fetch_events_eq _ _ rows) by done.
    unfold truthy. rewrite bool_decide_eq_true_2 by done.
    eexists. split; [reflexivity|].
    rewrite (Permutation_length (merge_sort_Permutation _ _)), Hcount.
    do 2 f_equal. apply list_filter_iff. intros r.
    split; [by inversion 1 | by intros ->].
Qed.

Lemma stats_agree_with_queries_witness :
  live Examples.store1.1
  ∧ records Examples.store1.1 Examples.store1.2 = Some Examples.rows1
  ∧ ∃ st,
      get_stats (Examples.store1.1, Examples.store1.2)
        = (Return st, (Examples.store1.1, Examples.store1.2))
      ∧ total_unique st = Z.of_nat (length Examples.rows1)
      ∧ (∃ l, get_processed_events None (Examples.store1.1, Examples.store1.2)
                = (Return l, (Examples.store1.1, Examples.store1.2))
              ∧ Z.of_nat (length l) = total_unique st)
      ∧ (∀ t, is_Some (topics st !! t)
              ↔ Exists (λ r, row_topic r = t) Examples.rows1)
      ∧ (∀ t, default 0 (topics st !! t)
              = Z.of_nat (length (filter (λ r, row_topic r = t) Examples.rows1)))
      ∧ (∀ t, t ≠ "" →
           ∃ l, get_processed_events (Some t)
                  (Examples.store1.1, Examples.store1.2)
                = (Return l, (Examples.store1.1, Examples.store1.2))
                ∧ Z.of_nat (length l) = default 0 (topics st !! t)).
Proof.
  destruct store1_usable as [Hlive Hrec].
  split; [exact Hlive|]. split; [exact Hrec|].
  exact (stats_agree_with_queries _ _ Examples.rows1 Hlive Hrec).
Defined.

Lemma execute_select_state where_ c d :
  (Sqlite.execute_select where_ (c, d)).2 = (c, d).
Proof.
  unfold Sqlite.execute_select, Sqlite.check_open, Sqlite.read_table, bind, ret.
  cbn [fst snd]. destruct (Sqlite.closed c); [done|]. cbn [fst snd].
  by destruct (Sqlite.view c d).
Qed.

Lemma on_conn_select_state where_ s d :
  (on_conn (Sqlite.execute_select where_) (s, d)).2 = (s, d).
Proof.
  unfold on_conn. cbn [fst snd].
  pose proof (execute_select_state where_ (conn s) d) as Hst.
  destruct (Sqlite.execute_select where_ (conn s, d)) as [o [c' d']].
  cbn in *. inversion Hst; subst. by destruct s.
Qed.

Lemma is_processed_state topic event_id σ :
  (is_processed topic event_id σ).2 = σ.
Proof.
  destruct σ as [s d]. unfold is_processed, _sync_check, bind.
  pose proof (on_conn_select_state
    (λ r, bool_decide (row_topic r = topic)
          && bool_decide (row_event_id r = event_id)) s d) as Hst.
  destruct (on_conn _ (s, d)) as [[l|e] σ']; cbn in *; by subst.
Qed.

Lemma get_processed_events_state topic σ :
  (get_processed_events topic σ).2 = σ.
Proof.
  destruct σ as [s d]. unfold get_processed_events, _sync_fetch_events.
  destruct (truthy topic);
    unfold on_conn, Sqlite.execute_select_order_by_processed_at_desc, bind;
    cbn [fst snd];
    match goal with
    | |- context [Sqlite.execute_select ?w (conn s, d)] =>
        pose proof (execute_select_state w (conn s) d) as Hst;
        destruct (Sqlite.execute_select w (conn s, d)) as [[l|e] [c' d']]
    end; cbn in *; inversion Hst; subst; by destruct s.
Qed.

Lemma get_stats_state σ : (get_stats σ).2 = σ.
Proof.
  destruct σ as [s d]. unfold get_stats, _sync_get_stats, bind.
  pose proof (on_conn_select_state (λ _, true) s d) as Hst.
  destruct (on_conn (Sqlite.execute_select (λ _, true)) (s, d)) as [[l|e] σ'];
    cbn in *; subst; [|done].
  pose proof (on_conn_select_state (λ _, true) s d) as Hst.
  destruct (on_conn (Sqlite.execute_select (λ _, true)) (s, d)) as [[l'|e] σ'];
    cbn in *; by subst.
Qed.

(** X7. The reads of the store change nothing: whatever the state of the
    instance and of the disk, and whether they return or raise,
    [is_processed], [get_processed_events] and [get_stats] leave both as
    they were. *)
Theorem store_reads_change_nothing
    (σ : DeduplicationStore.St) (topic event_id : string)
    (filter_topic : option string) :
  (is_processed topic event_id σ).2 = σ
  ∧ (get_processed_events filter_topic σ).2 = σ
  ∧ (get_stats σ).2 = σ.
Proof.
  split_and!;
    [apply is_processed_state | apply get_processed_events_state
    | apply get_stats_state].
Qed.

Lemma closed_calls s d (topic event_id timestamp now : string)
    (filter_topic : option string) :
  Sqlite.closed (conn s) = true →
  is_processed topic event_id (s, d) = (Raise ProgrammingError, (s, d))
  ∧ mark_processed topic event_id timestamp now (s, d)
    = (Raise ProgrammingError, (s, d))
  ∧ get_processed_events filter_topic (s, d) = (Raise ProgrammingError, (s, d))
  ∧ get_stats (s, d) = (Raise ProgrammingError, (s, d))
  ∧ clear (s, d) = (Raise ProgrammingError, (s, d))
  ∧ close (s, d) = (Return (), (s, d)).
Proof.
  intros Hclosed. destruct s as [p [cl db tx]]. cbn in Hclosed. subst cl.
  split_and!; try reflexivity.
  unfold get_processed_events, _sync_fetch_events.
  by destruct (truthy filter_topic).
Qed.

(** X8. On an instance whose connection is closed, [is_processed],
    [mark_processed], [get_processed_events], [get_stats] and [clear] raise
    [ProgrammingError] and leave the instance and the disk as they were;
    [close] returns and changes nothing. *)
Theorem closed_store_raises
    (s : DeduplicationStore.t) (d : Disk)
    (topic event_id timestamp now : string) (filter_topic : option string) :
  Sqlite.closed (conn s) = true →
  is_processed topic event_id (s, d) = (Raise ProgrammingError, (s, d))
  ∧ mark_processed topic event_id timestamp now (s, d)
    = (Raise ProgrammingError, (s, d))
  ∧ get_processed_events filter_topic (s, d) = (Raise ProgrammingError, (s, d))
  ∧ get_stats (s, d) = (Raise ProgrammingError, (s, d))
  ∧ clear (s, d) = (Raise ProgrammingError, (s, d))
  ∧ close (s, d) = (Return (), (s, d)).
Proof. apply closed_calls. Qed.

Lemma closed_store_raises_witness :
  let s := (close Examples.store1).2.1 in
  let d := (close Examples.store1).2.2 in
  Sqlite.closed (conn s) = true
  ∧ is_processed "orders" "evt_1" (s, d) = (Raise ProgrammingError, (s, d))
  ∧ mark_processed "orders" "evt_1" "2025-10-18T10:00:00Z"
      "2025-10-18T10:00:05.000001+00:00" (s, d)
    = (Raise ProgrammingError, (s, d))
  ∧ get_processed_events None (s, d) = (Raise ProgrammingError, (s, d))
  ∧ get_stats (s, d) = (Raise ProgrammingError, (s, d))
  ∧ clear (s, d) = (Raise ProgrammingError, (s, d))
  ∧ close (s, d) = (Return (), (s, d)).
Proof.
  intros s d.
  assert (Sqlite.closed (conn s) = true) as Hclosed by (vm_compute; reflexivity).
  split; [exact Hclosed|].
  exact (closed_store_raises s d "orders" "evt_1" "2025-10-18T10:00:00Z"
           "2025-10-18T10:00:05.000001+00:00" None Hclosed).
Defined.

End StoreProperties.

(** * Further properties of the aggregator *)

Section AggregatorProperties.
Import DeduplicationStore EventAggregator Interleaving.

Lemma final_usable :
  live (dedup_store (agg Scenario.final))
  ∧ records (dedup_store (agg Scenario.final)) (disk Scenario.final)
    = Some Scenario.final_rows.
Proof. split; vm_compute; reflexivity. Qed.


(** X10. [start()] always returns with the aggregator running; it touches
    neither the store, nor the queue, nor the counters, nor the disk. On an
    aggregator that is not running it creates exactly five consumers; on a
    running one it changes nothing, so a second [start()] is a no-op. *)
Theorem start_once (σ : EventAggregator.St) :
  start σ = (Return (), (start σ).2)
  ∧ running (start σ).2.1 = true
  ∧ dedup_store (start σ).2.1 = dedup_store σ.1
  ∧ queue (start σ).2.1 = queue σ.1
  ∧ stats (start σ).2.1 = stats σ.1
  ∧ (start σ).2.2 = σ.2
  ∧ consumer_tasks (start σ).2.1
    = (if running σ.1 then consumer_tasks σ.1 else replicate 5 Created)
  ∧ start (start σ).2 = (Return (), (start σ).2).
Proof.
  destruct σ as [[s q st rn ts] d].
  unfold start, bind, get, update, modify, ret. cbn.
  destruct rn; cbn; split_and!; done.
Qed.


Lemma closed_aggregator_calls a d event events topic now clock :
  Sqlite.closed (conn (dedup_store a)) = true →
  publish (event :: events) (a, d)
    = (Raise ProgrammingError, (set_stats incr_received a, d))
  ∧ publish [] (a, d) = (Return result0, (a, d))
  ∧ get_events topic (a, d) = (Raise ProgrammingError, (a, d))
  ∧ EventAggregator.get_stats now (a, d) = (Raise ProgrammingError, (a, d))
  ∧ _process_event event clock (a, d) = (Raise ProgrammingError, (a, d)).
Proof.
  intros Hclosed. destruct a as [s q st rn ts]. cbn [dedup_store] in Hclosed.
  destruct (closed_calls s d (Event.topic event) (Event.event_id event)
              (Event.timestamp event) clock topic Hclosed)
    as (Hcheck & Hmark & Hfetch & Hstats & _).
  split_and!.
  - unfold publish. cbn [publish_loop].
    unfold bind, publish_event, bind, count_received, update, modify,
      ask_store, on_store.
    cbn [fst snd dedup_store set_stats]. by rewrite Hcheck.
  - done.
  - unfold get_events, bind, on_store. cbn [fst snd dedup_store].
    by rewrite Hfetch.
  - unfold EventAggregator.get_stats, bind, on_store. cbn [fst snd dedup_store].
    by rewrite Hstats.
  - unfold _process_event, bind, mark, on_store. cbn [fst snd dedup_store].
    by rewrite Hmark.
Qed.

(** X12. Over a store whose connection is closed, [publish] of a
    non-empty list raises [ProgrammingError] at its first event, after
    counting it in [received] and before anything else: nothing is queued,
    no other counter moves. [publish] of the empty list returns zeros.
    [get_events], [get_stats] and [_process_event] raise and change
    nothing. *)
Theorem closed_store_aggregator
    (a : EventAggregator.t) (d : Disk) (event : Event.t)
    (events : list Event.t) (topic : option string) (now : Z)
    (clock : string) :
  Sqlite.closed (conn (dedup_store a)) = true →
  publish (event :: events) (a, d)
    = (Raise ProgrammingError, (set_stats incr_received a, d))
  ∧ publish [] (a, d) = (Return result0, (a, d))
  ∧ get_events topic (a, d) = (Raise ProgrammingError, (a, d))
  ∧ EventAggregator.get_stats now (a, d) = (Raise ProgrammingError, (a, d))
  ∧ _process_event event clock (a, d) = (Raise ProgrammingError, (a, d)).
Proof. apply closed_aggregator_calls. Qed.

Lemma closed_store_aggregator_witness :
  let a := (stop (agg Scenario.final, disk Scenario.final)).2.1 in
  let d := (stop (agg Scenario.final, disk Scenario.final)).2.2 in
  Sqlite.closed (conn (dedup_store a)) = true
  ∧ publish (Scenario.e1 :: [Scenario.e2]) (a, d)
    = (Raise ProgrammingError, (set_stats incr_received a, d))
  ∧ publish [] (a, d) = (Return result0, (a, d))
  ∧ get_events None (a, d) = (Raise ProgrammingError, (a, d))
  ∧ EventAggregator.get_stats 1760781660 (a, d)
    = (Raise ProgrammingError, (a, d))
  ∧ _process_event Scenario.e1 "2025-10-18T10:00:09.000001+00:00" (a, d)
    = (Raise ProgrammingError, (a, d)).
Proof.
  intros a d.
  assert (Sqlite.closed (conn (dedup_store a)) = true) as Hclosed
    by (vm_compute; reflexivity).
  split; [exact Hclosed|].
  exact (closed_store_aggregator a d Scenario.e1 [Scenario.e2] None
           1760781660 "2025-10-18T10:00:09.000001+00:00" Hclosed).
Defined.

(** X13. [start()] after [stop()] does not reopen the store: on an
    aggregator with consumer tasks, [stop()] then [start()] leaves it
    running with five new consumers over a closed store, and [publish] of a
    non-empty list then raises [ProgrammingError]. *)
Theorem restart_keeps_store_closed
    (σ : EventAggregator.St) (event : Event.t) (events : list Event.t) :
  consumer_tasks σ.1 ≠ [] →
  let σ' := (start (stop σ).2).2 in
  running σ'.1 = true
  ∧ consumer_tasks σ'.1 = replicate 5 Created
  ∧ Sqlite.closed (conn (dedup_store σ'.1)) = true
  ∧ (publish (event :: events) σ').1 = Raise ProgrammingError.
Proof.
  intros Hts σ'.
  assert (running σ'.1 = true ∧ consumer_tasks σ'.1 = replicate 5 Created
          ∧ Sqlite.closed (conn (dedup_store σ'.1)) = true) as (Hr & Hc & Hcl).
  { subst σ'. destruct σ as [[[p [cl db tx]] q st rn ts] d].
    cbn [fst] in Hts. destruct ts as [|k ts]; [done|].
    unfold stop, start, bind, update, modify, get, ret, on_store,
      DeduplicationStore.close, on_conn, Sqlite.close.
    cbn. by destruct cl. }
  split_and!; try done.
  replace σ' with (σ'.1, σ'.2) by (by destruct σ').
  destruct (closed_aggregator_calls σ'.1 σ'.2 event events None 0 "" Hcl)
    as [-> _]. done.
Qed.

Lemma restart_keeps_store_closed_witness :
  let σ := (agg Scenario.final, disk Scenario.final) in
  consumer_tasks σ.1 ≠ []
  ∧ let σ' := (start (stop σ).2).2 in
    running σ'.1 = true
    ∧ consumer_tasks σ'.1 = replicate 5 Created
    ∧ Sqlite.closed (conn (dedup_store σ'.1)) = true
    ∧ (publish (Scenario.e1 :: []) σ').1 = Raise ProgrammingError.
Proof.
  intros σ.
  assert (consumer_tasks σ.1 ≠ []) as Hts by (vm_compute; discriminate).
  split; [exact Hts|].
  exact (restart_keeps_store_closed σ Scenario.e1 [] Hts).
Defined.

(** X14. A failing store loses events without stopping anything. When
    the connection is closed, the stretch of a consumer that holds an event
    for its insert ends with the exception logged: the consumer is back at
    the head of its loop, the event is neither counted nor queued again.
    The stretch of a [publish] call that waits for the store's answer ends
    the call with [ProgrammingError], its event counted in [received] only. *)
Theorem store_failure_loses_events
    (sys : System) (j i : nat) (event event' : Event.t) (now : string)
    (evs rest : list Event.t) (result : publish_result) :
  Sqlite.closed (conn (dedup_store (agg sys))) = true →
  consumer_tasks (agg sys) !! j = Some (Marking event) →
  calls sys !! i = Some {| events := evs; at_ := Checking event' rest result |} →
  exec (WorkerStep j now) sys
    = Some {| agg := set_consumer_tasks
                       (<[j := loop_head (agg sys)]> (consumer_tasks (agg sys)))
                       (agg sys);
              disk := disk sys; calls := calls sys |}
  ∧ exec (CallStep i) sys
    = Some {| agg := agg sys; disk := disk sys;
              calls := <[i := {| events := evs;
                                 at_ := Raised ProgrammingError |}]> (calls sys) |}.
Proof.
  intros Hclosed Hj Hi. destruct sys as [ag d cs]. cbn [agg disk calls] in *.
  destruct (closed_aggregator_calls ag d event [] None 0 now Hclosed)
    as (_ & _ & _ & _ & Hproc).
  destruct (closed_calls (dedup_store ag) d (Event.topic event')
              (Event.event_id event') "" "" None Hclosed) as (Hcheck & _).
  destruct ag as [s q st rn ts]. cbn [dedup_store consumer_tasks] in *.
  split.
  - unfold exec. cbn [agg disk calls consumer_tasks]. rewrite Hj. cbn.
    unfold settle, bind.
    unfold _process_event, bind in Hproc.
    destruct (mark event now _) as [[b|e] σ'] eqn:Hm; [|by inversion Hproc].
    exfalso. by destruct b.
  - unfold exec. cbn [agg disk calls]. rewrite Hi. cbn.
    unfold settle, bind, ask_store, on_store. cbn [fst snd dedup_store].
    by rewrite Hcheck.
Qed.

Lemma store_failure_loses_events_witness :
  Sqlite.closed (conn (dedup_store (agg Stalled.sys))) = true
  ∧ consumer_tasks (agg Stalled.sys) !! 0%nat = Some (Marking Scenario.e1)
  ∧ calls Stalled.sys !! 1%nat
    = Some {| events := [Scenario.e2];
              at_ := Checking Scenario.e2 [] result0 |}
  ∧ exec (WorkerStep 0 "2025-10-18T10:00:09.000001+00:00") Stalled.sys
    = Some {| agg := set_consumer_tasks
                       (<[0%nat := loop_head (agg Stalled.sys)]>
                          (consumer_tasks (agg Stalled.sys)))
                       (agg Stalled.sys);
              disk := disk Stalled.sys; calls := calls Stalled.sys |}
  ∧ exec (CallStep 1) Stalled.sys
    = Some {| agg := agg Stalled.sys; disk := disk Stalled.sys;
              calls := <[1%nat := {| events := [Scenario.e2];
                                     at_ := Raised ProgrammingError |}]>
                         (calls Stalled.sys) |}.
Proof.
  assert (Sqlite.closed (conn (dedup_store (agg Stalled.sys))) = true) as Hclosed
    by (vm_compute; reflexivity).
  assert (consumer_tasks (agg Stalled.sys) !! 0%nat = Some (Marking Scenario.e1))
    as Hj by (vm_compute; reflexivity).
  assert (calls Stalled.sys !! 1%nat
          = Some {| events := [Scenario.e2];
                    at_ := Checking Scenario.e2 [] result0 |}) as Hi
    by (vm_compute; reflexivity).
  split; [exact Hclosed|]. split; [exact Hj|]. split; [exact Hi|].
  exact (store_failure_loses_events Stalled.sys 0 1 Scenario.e1 Scenario.e2
           "2025-10-18T10:00:09.000001+00:00" [Scenario.e2] [] result0
           Hclosed Hj Hi).
Defined.

Lemma _process_event_eq a d rows event now :
  live (dedup_store a) → records (dedup_store a) d = Some rows →
  ∃ s' d',
    _process_event event now (a, d)
      = (Return (),
         (count_agg (negb (bool_decide (known rows event))) (with_store s' a), d'))
    ∧ live s'
    ∧ records s' d' =
        Some (if bool_decide (known rows event) then rows
              else rows ++ [(Event.topic event, Event.event_id event,
                             Event.timestamp event, now)]).
Proof.
  intros Hlive Hrec.
  destruct (mark_eq a d rows event now Hlive Hrec) as (s' & d' & Hm & Hl & Hr).
  exists s', d'. split; [|done].
  unfold _process_event, bind. rewrite Hm. apply count_outcome_eq.
Qed.

(** X15. The first writer wins. On a usable store that does not know the
    identity of [event], processing [event] and then another event of the
    same identity counts one unique and one duplicate, leaves [received]
    and the queue alone, and stores one record: the timestamp of the first
    event with the clock reading of the first insert. The timestamp of the
    second event is stored nowhere. *)
Theorem first_writer_wins
    (a : EventAggregator.t) (d : Disk) (rows : table)
    (event event' : Event.t) (now now' : string) :
  live (dedup_store a) → records (dedup_store a) d = Some rows →
  ¬ known rows event →
  Event.identity event' = Event.identity event →
  ∃ a' d',
    (_process_event event now ;> _process_event event' now')%monad (a, d)
      = (Return (), (a', d'))
    ∧ unique_processed (stats a') = unique_processed (stats a) + 1
    ∧ duplicate_dropped (stats a') = duplicate_dropped (stats a) + 1
    ∧ received (stats a') = received (stats a)
    ∧ queue a' = queue a
    ∧ records (dedup_store a') d'
      = Some (rows ++ [(Event.topic event, Event.event_id event,
                        Event.timestamp event, now)]).
Proof.
  intros Hlive Hrec Hnew Hid.
  destruct (_process_event_eq a d rows event now Hlive Hrec)
    as (s1 & d1 & H1 & Hl1 & Hr1).
  rewrite bool_decide_eq_false_2 in H1, Hr1 by done. cbn [negb] in H1.
  set (rows1 := rows ++ [(Event.topic event, Event.event_id event,
                          Event.timestamp event, now)]) in *.
  assert (known rows1 event') as Hknown.
  { unfold known, has_identity, rows1. apply Exists_app. right. left.
    unfold Event.identity in Hid. by inversion Hid. }
  destruct (_process_event_eq (count_agg true (with_store s1 a)) d1 rows1
              event' now') as (s2 & d2 & H2 & Hl2 & Hr2); [done..|].
  rewrite bool_decide_eq_true_2 in H2, Hr2 by done. cbn [negb] in H2.
  eexists _, _. unfold bind. rewrite H1, H2.
  split; [reflexivity|]. cbn. split_and!; done.
Qed.

Lemma first_writer_wins_witness :
  let a := agg Scenario.sys0 in
  let d := disk Scenario.sys0 in
  let now := "2025-10-18T10:00:02.100000+00:00" in
  let now' := "2025-10-18T10:00:02.200000+00:00" in
  live (dedup_store a) ∧ records (dedup_store a) d = Some []
  ∧ ¬ known [] Scenario.e1
  ∧ Event.identity Scenario.e2 = Event.identity Scenario.e1
  ∧ ∃ a' d',
      (_process_event Scenario.e1 now ;> _process_event Scenario.e2 now')%monad
        (a, d) = (Return (), (a', d'))
      ∧ unique_processed (stats a') = unique_processed (stats a) + 1
      ∧ duplicate_dropped (stats a') = duplicate_dropped (stats a) + 1
      ∧ received (stats a') = received (stats a)
      ∧ queue a' = queue a
      ∧ records (dedup_store a') d'
        = Some ([] ++ [(Event.topic Scenario.e1, Event.event_id Scenario.e1,
                        Event.timestamp Scenario.e1, now)]).
Proof.
  intros a d now now'.
  assert (live (dedup_store a)) as Hlive by (vm_compute; reflexivity).
  assert (records (dedup_store a) d = Some []) as Hrec
    by (vm_compute; reflexivity).
  assert (¬ known [] Scenario.e1) as Hnew by (by inversion 1).
  assert (Event.identity Scenario.e2 = Event.identity Scenario.e1) as Hid
    by reflexivity.
  split; [exact Hlive|]. split; [exact Hrec|]. split; [exact Hnew|].
  split; [exact Hid|].
  exact (first_writer_wins a d [] Scenario.e1 Scenario.e2 now now'
           Hlive Hrec Hnew Hid).
Defined.

(** X16. What is processed is listed. After [_process_event] of an event
    whose identity the usable store did not know, [get_events] without
    topic and [get_events] with the topic of the event both list the record
    made of the event's topic, id and timestamp and of the clock reading of
    the insert; and [publish] of the same event is then rejected at the
    gate. *)
Theorem processed_event_is_listed
    (a : EventAggregator.t) (d : Disk) (rows : table)
    (event : Event.t) (now : string) :
  live (dedup_store a) → records (dedup_store a) d = Some rows →
  ¬ known rows event →
  ∃ σ',
    _process_event event now (a, d) = (Return (), σ')
    ∧ (∃ l, get_events None σ' = (Return l, σ')
            ∧ {| topic := Event.topic event; event_id := Event.event_id event;
                 timestamp := Event.timestamp event; processed_at := now |} ∈ l)
    ∧ (∃ l, get_events (Some (Event.topic event)) σ' = (Return l, σ')
            ∧ {| topic := Event.topic event; event_id := Event.event_id event;
                 timestamp := Event.timestamp event; processed_at := now |} ∈ l)
    ∧ (∃ result σ'', publish [event] σ' = (Return result, σ'')
            ∧ rejected result = 1 ∧ accepted result = 0
            ∧ queue σ''.1 = queue a).
Proof.
  intros Hlive Hrec Hnew.
  destruct (_process_event_eq a d rows event now Hlive Hrec)
    as (s1 & d1 & H1 & Hl1 & Hr1).
  rewrite bool_decide_eq_false_2 in H1, Hr1 by done. cbn [negb] in H1.
  set (r := (Event.topic event, Event.event_id event,
             Event.timestamp event, now)) in *.
  set (a1 := count_agg true (with_store s1 a)) in *.
  assert (live (dedup_store a1)) as Hl by done.
  assert (records (dedup_store a1) d1 = Some (rows ++ [r])) as Hr by done.
  exists (a1, d1). split; [done|]. split_and!.
  - rewrite (get_events_eq _ _ (rows ++ [r])) by done. cbn [truthy].
    eexists. split; [reflexivity|].
    apply (list_elem_of_fmap_2 record_of_row _ r).
    rewrite merge_sort_Permutation. apply elem_of_app. right. left.
  - rewrite (get_events_eq _ _ (rows ++ [r])) by done.
    eexists. split; [reflexivity|].
    apply (list_elem_of_fmap_2 record_of_row _ r).
    rewrite merge_sort_Permutation.
    destruct (truthy (Some (Event.topic event))).
    + apply list_elem_of_filter. split; [done|].
      apply elem_of_app. right. left.
    + apply elem_of_app. right. left.
  - destruct (publish_loop_spec d1 (rows ++ [r]) [event] result0 a1 Hl Hr)
      as (result & a' & Heq & _ & _ & _ & Hq & _ & _ & _ & _ & _ & Hrej & Hacc).
    assert (known (rows ++ [r]) event) as Hknown.
    { unfold known, has_identity. apply Exists_app. right. by left. }
    rewrite !filter_cons, !filter_nil in Hq, Hrej, Hacc.
    rewrite decide_True in Hrej by done.
    rewrite decide_False in Hq, Hacc by tauto.
    exists result, (a', d1). split; [exact Heq|].
    cbn in *. rewrite app_nil_r in Hq. split_and!; [lia | lia | done].
Qed.

Lemma processed_event_is_listed_witness :
  let a := agg Scenario.sys0 in
  let d := disk Scenario.sys0 in
  let event := Scenario.e1 in
  let now := "2025-10-18T10:00:02.100000+00:00" in
  live (dedup_store a) ∧ records (dedup_store a) d = Some []
  ∧ ¬ known [] event
  ∧ ∃ σ',
    _process_event event now (a, d) = (Return (), σ')
    ∧ (∃ l, get_events None σ' = (Return l, σ')
            ∧ {| topic := Event.topic event; event_id := Event.event_id event;
                 timestamp := Event.timestamp event; processed_at := now |} ∈ l)
    ∧ (∃ l, get_events (Some (Event.topic event)) σ' = (Return l, σ')
            ∧ {| topic := Event.topic event; event_id := Event.event_id event;
                 timestamp := Event.timestamp event; processed_at := now |} ∈ l)
    ∧ (∃ result σ'', publish [event] σ' = (Return result, σ'')
            ∧ rejected result = 1 ∧ accepted result = 0
            ∧ queue σ''.1 = queue a).
Proof.
  intros a d event now.
  assert (live (dedup_store a)) as Hlive by (vm_compute; reflexivity).
  assert (records (dedup_store a) d = Some []) as Hrec
    by (vm_compute; reflexivity).
  assert (¬ known [] event) as Hnew by (by inversion 1).
  split; [exact Hlive|]. split; [exact Hrec|]. split; [exact Hnew|].
  exact (processed_event_is_listed a d [] event now Hlive Hrec Hnew).
Defined.

Lemma on_store_state {A} (m : M DeduplicationStore.St A) σ :
  (m (dedup_store σ.1, σ.2)).2 = (dedup_store σ.1, σ.2) →
  (on_store m σ).2 = σ.
Proof.
  intros Hm. destruct σ as [[s q st rn ts] d]. unfold on_store.
  cbn [fst snd dedup_store queue stats running consumer_tasks] in *.
  destruct (m (s, d)) as [o [s' d']]. cbn in *. by inversion Hm.
Qed.

(** X17. The facade only reads: whatever the state of the aggregator, of
    its store and of the disk, and whether they return or raise,
    [get_events] and [get_stats] leave all three as they were. *)
Theorem facade_changes_nothing
    (σ : EventAggregator.St) (topic : option string) (now : Z) :
  (get_events topic σ).2 = σ
  ∧ (EventAggregator.get_stats now σ).2 = σ.
Proof.
  split.
  - unfold get_events, bind.
    pose proof (on_store_state (get_processed_events topic) σ
                  (get_processed_events_state _ _)) as Hst.
    destruct (on_store _ σ) as [[l|e] σ']; cbn in *; by subst.
  - unfold EventAggregator.get_stats, bind.
    pose proof (on_store_state DeduplicationStore.get_stats σ
                  (get_stats_state _)) as Hst.
    destruct (on_store _ σ) as [[l|e] σ']; cbn in *; by subst.
Qed.

Lemma total_nonneg {A} (f : A → Z) (l : list A) :
  (∀ x, 0 ≤ f x) → 0 ≤ total f l.
Proof.
  intros Hf. induction l as [|x l IH]; [done|].
  change (total f (x :: l)) with (f x + total f l). specialize (Hf x). lia.
Qed.

Lemma step_counters_nonneg sys a sys' :
  step sys a sys' →
  0 ≤ unique_processed (stats (agg sys))
  ∧ 0 ≤ duplicate_dropped (stats (agg sys)) →
  0 ≤ unique_processed (stats (agg sys'))
  ∧ 0 ≤ duplicate_dropped (stats (agg sys')).
Proof.
  intros Hstep [Hu Hd]. destruct Hstep; cbn [agg]; try done.
  - by destruct evs.
  - subst n. destruct rest, dup; cbn; lia.
  - subst a. destruct was_new; cbn; lia.
Qed.

Lemma run_counters schedule : ∀ sys sys',
  usable sys → conserved sys →
  0 ≤ unique_processed (stats (agg sys))
  ∧ 0 ≤ duplicate_dropped (stats (agg sys)) →
  run schedule sys = Some sys' →
  conserved sys'
  ∧ 0 ≤ unique_processed (stats (agg sys'))
  ∧ 0 ≤ duplicate_dropped (stats (agg sys')).
Proof.
  induction schedule as [|a schedule IH]; intros sys sys' Hu Hc Hn Hrun.
  - by inversion Hrun; subst.
  - cbn in Hrun. destruct (exec a sys) as [sys1|] eqn:Hexec; [|done].
    cbn in Hrun. apply exec_step in Hexec; [|done].
    apply (IH sys1);
      eauto using step_usable, step_conserved, step_counters_nonneg.
Qed.

(** X18. Before the drain. At every point of every schedule from the
    started service, the counters are not negative, [unique_processed +
    duplicate_dropped] is at most [received], and what is missing is the
    number of events queued, held by a publish call between its count and
    its decision, or held by a consumer. *)
Theorem counters_before_drain
    (sys0 : System) (schedule : list action) (sys : System) :
  started sys0 →
  run schedule sys0 = Some sys →
  0 ≤ unique_processed (stats (agg sys))
  ∧ 0 ≤ duplicate_dropped (stats (agg sys))
  ∧ unique_processed (stats (agg sys)) + duplicate_dropped (stats (agg sys))
    ≤ received (stats (agg sys))
  ∧ received (stats (agg sys))
    - (unique_processed (stats (agg sys)) + duplicate_dropped (stats (agg sys)))
    = Z.of_nat (length (queue (agg sys)))
      + total checking (calls sys)
      + total holding (consumer_tasks (agg sys)).
Proof.
  intros Hstart Hrun.
  destruct (run_counters schedule sys0 sys) as (Hc & Hu & Hd);
    [by apply started_usable | by apply started_conserved | | done |].
  { destruct Hstart as (_ & _ & _ & -> & -> & _). lia. }
  unfold conserved in Hc.
  assert (0 ≤ total checking (calls sys)) as H1.
  { apply total_nonneg. intros [evs st]. unfold checking. cbn. by destruct st. }
  assert (0 ≤ total holding (consumer_tasks (agg sys))) as H2.
  { apply total_nonneg. intros k. unfold holding. by destruct (holds_event k). }
  split_and!; lia.
Qed.

Lemma counters_before_drain_witness :
  started Scenario.sys0
  ∧ run Stalled.schedule Scenario.sys0 = Some Stalled.before_close
  ∧ 0 ≤ unique_processed (stats (agg Stalled.before_close))
  ∧ 0 ≤ duplicate_dropped (stats (agg Stalled.before_close))
  ∧ unique_processed (stats (agg Stalled.before_close))
    + duplicate_dropped (stats (agg Stalled.before_close))
    ≤ received (stats (agg Stalled.before_close))
  ∧ received (stats (agg Stalled.before_close))
    - (unique_processed (stats (agg Stalled.before_close))
       + duplicate_dropped (stats (agg Stalled.before_close)))
    = Z.of_nat (length (queue (agg Stalled.before_close)))
      + total checking (calls Stalled.before_close)
      + total holding (consumer_tasks (agg Stalled.before_close)).
Proof.
  assert (run Stalled.schedule Scenario.sys0 = Some Stalled.before_close)
    as Hrun by (vm_compute; reflexivity).
  split; [exact scenario_started|]. split; [exact Hrun|].
  exact (counters_before_drain Scenario.sys0 Stalled.schedule
           Stalled.before_close scenario_started Hrun).
Defined.

End AggregatorProperties.

(** * Exactly-once accounting over many identities *)

Section ExactlyOnce.
Import DeduplicationStore EventAggregator Interleaving TableModel Accounting.

Ltac project :=
  cbn [agg disk calls events at_
       dedup_store queue stats running consumer_tasks
       set_stats set_queue set_running set_consumer_tasks with_store
       count_agg resume_agg next fst snd
       received unique_processed duplicate_dropped start_time
       incr_received incr_unique_processed incr_duplicate_dropped] in *.

Lemma events_insert (cs : list call) i evs st st' :
  cs !! i = Some {| events := evs; at_ := st |} →
  events <$> <[i := {| events := evs; at_ := st' |}]> cs = events <$> cs.
Proof.
  intros Hi. rewrite list_fmap_insert. apply list_insert_id.
  by rewrite list_lookup_fmap, Hi.
Qed.

Lemma step_arguments_list sys a sys' :
  step sys a sys' → arguments sys' = arguments sys ++ published [a].
Proof.
  intros Hstep. unfold arguments.
  destruct Hstep as [evs|i evs event rest result rows Hi Hrows
                    |i evs dup event rest result Hi n
                    |j now k' Hj Hk|j now event q Hj Hq'
                    |j event now rows s' d' Hj Hrows Hlive' Hrec'
                    |j now event was_new Hj a]; cbn [calls published].
  - rewrite fmap_app, join_app. cbn. by rewrite !app_nil_r.
  - by rewrite (events_insert _ _ _ _ _ Hi), app_nil_r.
  - by rewrite (events_insert _ _ _ _ _ Hi), app_nil_r.
  - by rewrite app_nil_r.
  - by rewrite app_nil_r.
  - by rewrite app_nil_r.
  - by rewrite app_nil_r.
Qed.

Lemma elem_of_insert_other {A} (l : list A) (j : nat) (x y z : A) :
  x ∈ l → l !! j = Some y → x ≠ y → x ∈ <[j := z]> l.
Proof.
  intros Hx Hj Hne. apply list_elem_of_lookup in Hx as [i Hi].
  apply list_elem_of_lookup. exists i.
  rewrite list_lookup_insert_ne; [done|]. intros ->. congruence.
Qed.

Lemma elem_of_insert_cases {A} (l : list A) (j : nat) (x y z : A) :
  x ∈ l → l !! j = Some y → x = y ∨ x ∈ <[j := z]> l.
Proof.
  intros Hx Hj. apply list_elem_of_lookup in Hx as [i Hi].
  destruct (decide (i = j)) as [->|Hne]; [left; congruence|].
  right. apply list_elem_of_lookup. exists i.
  by rewrite list_lookup_insert_ne.
Qed.

Lemma known_mono (rows more : table) e : known rows e → known (rows ++ more) e.
Proof. unfold known, has_identity. intros H. apply Exists_app. by left. Qed.

(** Once taken care of, an event stays so. *)
Lemma step_covered sys a sys' e :
  step sys a sys' → covered sys e → covered sys' e.
Proof.
  intros Hstep Hcov. unfold covered, stored in *.
  destruct Hstep as [evs|i evs event rest result rows Hi Hrows
                    |i evs dup event rest result Hi n
                    |j now k' Hj Hk|j now event q Hj Hq'
                    |j event now rows s' d' Hj Hrows Hlive' Hrec'
                    |j now event was_new Hj a].
  - by destruct evs.
  - done.
  - subst n. destruct rest, dup; project; try done;
      (destruct Hcov as [?|[?|?]]; [by left | | by right; right]);
      right; left; apply elem_of_app; by left.
  - project. destruct Hcov as [?|[?|Hm]]; [by left | by right; left |].
    right; right. eapply elem_of_insert_other; [done..|].
    destruct Hk as [->|[->|[-> _]]]; done.
  - project. rewrite Hq' in Hcov.
    destruct Hcov as [?|[Hin|Hm]]; [by left | |].
    + apply elem_of_cons in Hin as [->|Hin]; [|by right; left].
      right; right. apply list_elem_of_lookup. exists j.
      apply list_lookup_insert_eq. by eapply lookup_lt_Some.
    + right; right. by eapply elem_of_insert_other.
  - project. unfold stored in Hrows.
    assert (∃ rows', records s' d' = Some rows' ∧ known rows' event
                     ∧ ∀ e', known rows e' → known rows' e')
      as (rows' & Hrows' & Hev & Hmono).
    { eexists. split; [exact Hrec'|].
      destruct (decide (known rows event)) as [Hk|Hk].
      - rewrite bool_decide_eq_true_2 by done. done.
      - rewrite bool_decide_eq_false_2 by done. split.
        + unfold known, has_identity. apply Exists_app. right. by left.
        + intros e'. apply known_mono. }
    destruct Hcov as [(rows1 & Hr1 & Hk1)|[?|Hm]]; [| by right; left |].
    + left. exists rows'. split; [done|]. apply Hmono.
      rewrite Hrows in Hr1. by inversion Hr1; subst.
    + destruct (elem_of_insert_cases _ j _ _
                  (Marked event (negb (bool_decide (known rows event)))) Hm Hj)
        as [Heq|Hin].
      * inversion Heq; subst. left. by exists rows'.
      * by right; right.
  - subst a. destruct was_new; project;
      (destruct Hcov as [?|[?|Hm]]; [by left | by right; left |]);
      right; right; by eapply elem_of_insert_other.
Qed.

Lemma argument_of_call sys i c e :
  calls sys !! i = Some c → e ∈ events c → e ∈ arguments sys.
Proof.
  intros Hi He. unfold arguments. apply list_elem_of_join.
  exists (events c). split; [done|].
  apply list_elem_of_fmap. exists c. split; [done|].
  apply list_elem_of_lookup. by exists i.
Qed.

Lemma marked_new_loop_head a : marked_new (loop_head a) = 0.
Proof. by destruct (loop_head_cases a) as [->| ->]. Qed.

Lemma events_of_task_loop_head a : events_of_task (loop_head a) = [].
Proof. by destruct (loop_head_cases a) as [->| ->]. Qed.

Lemma step_received sys a sys' :
  step sys a sys' →
  received (stats (agg sys)) = total consumed (calls sys) →
  received (stats (agg sys')) = total consumed (calls sys').
Proof.
  intros Hstep Hrecv.
  destruct Hstep as [evs|i evs event rest result rows Hi Hrows
                    |i evs dup event rest result Hi n
                    |j now k' Hj Hk|j now event q Hj Hq'
                    |j event now rows s' d' Hj Hrows Hlive' Hrec'
                    |j now event was_new Hj a]; try done.
  - destruct evs; project; rewrite total_app, total_singleton, Hrecv;
      unfold consumed; cbn [events at_ length]; lia.
  - project. rewrite (total_insert _ _ _ _ _ Hi), Hrecv. unfold consumed. cbn. lia.
  - subst n. destruct rest, dup; project;
      rewrite (total_insert _ _ _ _ _ Hi), Hrecv;
      unfold consumed; cbn [events at_ length]; lia.
  - subst a. by destruct was_new.
Qed.

(** What is queued or held by a consumer was handed to some call. *)
Lemma step_origin sys a sys' rows0 :
  step sys a sys' → accounted rows0 sys →
  Forall (λ e, e ∈ arguments sys') (queue (agg sys'))
  ∧ Forall (λ t, Forall (λ e, e ∈ arguments sys') (events_of_task t))
           (consumer_tasks (agg sys')).
Proof.
  intros Hstep [_ Hq Hts Hcs _].
  pose proof (step_arguments_list _ _ _ Hstep) as Hargs.
  assert (∀ e, e ∈ arguments sys → e ∈ arguments sys') as Hsub.
  { intros e He. rewrite Hargs. apply elem_of_app. by left. }
  assert (Forall (λ e, e ∈ arguments sys') (queue (agg sys))) as Hq'.
  { eapply Forall_impl; [exact Hq|]. auto. }
  assert (Forall (λ t, Forall (λ e, e ∈ arguments sys') (events_of_task t))
                 (consumer_tasks (agg sys))) as Hts'.
  { eapply Forall_impl; [exact Hts|]. intros t Ht.
    eapply Forall_impl; [exact Ht|]. auto. }
  clear Hargs.
  destruct Hstep as [evs|i evs event rest result rows Hi Hrows
                    |i evs dup event rest result Hi n
                    |j now k' Hj Hk|j now event q Hj Hqe
                    |j event now rows s' d' Hj Hrows Hlive' Hrec'
                    |j now event was_new Hj a].
  - by destruct evs.
  - done.
  - subst n.
    assert (event ∈ arguments sys) as Hev.
    { pose proof (Forall_lookup_1 _ _ _ _ Hcs Hi) as (done & Hevs & _).
      eapply argument_of_call; [exact Hi|]. rewrite Hevs.
      apply elem_of_app. right. unfold events_of_call. cbn. left. }
    destruct rest, dup; project; split; try done;
      apply Forall_app; split; try done; apply Forall_singleton; auto.
  - project. split; [done|]. apply Forall_insert; [done|].
    by rewrite events_of_task_loop_head.
  - project. rewrite Hqe in Hq'. apply Forall_cons in Hq' as [Hev Hq'].
    split; [done|]. apply Forall_insert; [done|]. by apply Forall_singleton.
  - project. split; [done|]. apply Forall_insert; [done|].
    pose proof (Forall_lookup_1 _ _ _ _ Hts' Hj) as Hev. exact Hev.
  - subst a. destruct was_new; project; (split; [done|]);
      (apply Forall_insert; [done|]); [done|].
    by rewrite events_of_task_loop_head.
Qed.

(** The records grow by one row for every new identity inserted. *)
Lemma step_rows sys a sys' rows0 :
  step sys a sys' → accounted rows0 sys →
  ∃ more,
    stored sys' = Some (rows0 ++ more)
    ∧ NoDup (key <$> (rows0 ++ more))
    ∧ unique_processed (stats (agg sys'))
        + total marked_new (consumer_tasks (agg sys'))
      = Z.of_nat (length more)
    ∧ Forall (λ r, key r ∈ Event.identity <$> arguments sys') more.
Proof.
  intros Hstep [(more & Hst & Hnd & Huniq & Horigin) _ Hts _ _].
  pose proof (step_arguments_list _ _ _ Hstep) as Hargs.
  assert (Forall (λ r, key r ∈ Event.identity <$> arguments sys') more)
    as Horigin'.
  { eapply Forall_impl; [exact Horigin|]. intros r Hr. cbn in *.
    rewrite Hargs, fmap_app. apply elem_of_app. by left. }
  unfold stored in *.
  destruct Hstep as [evs|i evs event rest result rows Hi Hrows
                    |i evs dup event rest result Hi n
                    |j now k' Hj Hk|j now event q Hj Hqe
                    |j event now rows s' d' Hj Hrows Hlive' Hrec'
                    |j now event was_new Hj a].
  - exists more. by destruct evs.
  - by exists more.
  - exists more. subst n. by destruct rest, dup.
  - exists more. project. split_and!; try done.
    rewrite (total_insert _ _ _ _ _ Hj), marked_new_loop_head.
    assert (marked_new k' = 0) as -> by (destruct Hk as [->|[->|[-> _]]]; done).
    lia.
  - exists more. project. split_and!; try done.
    rewrite (total_insert _ _ _ _ _ Hj). cbn. lia.
  - unfold stored in Hrows. rewrite Hst in Hrows. inversion Hrows; subst rows.
    project. destruct (decide (known (rows0 ++ more) event)) as [Hk|Hk].
    + rewrite bool_decide_eq_true_2 in Hrec' |- * by done.
      exists more. split_and!; try done.
      rewrite (total_insert _ _ _ _ _ Hj). cbn. lia.
    + rewrite bool_decide_eq_false_2 in Hrec' |- * by done.
      set (r := (Event.topic event, Event.event_id event,
                 Event.timestamp event, now)) in *.
      exists (more ++ [r]). rewrite app_assoc. split_and!.
      * done.
      * rewrite fmap_app. apply NoDup_app. split_and!; [done| |].
        -- intros k Hin Hr. apply list_elem_of_singleton in Hr. subst k.
           apply Hk. by apply has_identity_key.
        -- apply NoDup_singleton.
      * rewrite (total_insert _ _ _ _ _ Hj), length_app. cbn. lia.
      * apply Forall_app. split; [done|]. apply Forall_singleton.
        pose proof (Forall_lookup_1 _ _ _ _ Hts Hj) as Hev. cbn in Hev.
        apply Forall_cons in Hev as [Hev _].
        apply list_elem_of_fmap. exists event. split; [reflexivity|]. exact Hev.
  - exists more. subst a. destruct was_new; project; split_and!; try done.
    + rewrite (total_insert _ _ _ _ _ Hj). cbn. lia.
    + rewrite (total_insert _ _ _ _ _ Hj), marked_new_loop_head. cbn. lia.
Qed.

(** Every event a call is done with is taken care of. *)
Lemma step_calls sys a sys' rows0 :
  step sys a sys' → accounted rows0 sys →
  Forall (λ c, ∃ done,
            events c = done ++ events_of_call c
            ∧ Forall (covered sys') (done ++ answered_duplicate c))
         (calls sys').
Proof.
  intros Hstep [_ _ _ Hcs _].
  pose proof (λ e, step_covered sys a sys' e Hstep) as Hmono.
  assert (Forall (λ c, ∃ done,
                    events c = done ++ events_of_call c
                    ∧ Forall (covered sys') (done ++ answered_duplicate c))
                 (calls sys)) as Hcs'.
  { eapply Forall_impl; [exact Hcs|]. intros c (done & Hevs & Hcov).
    exists done. split; [done|]. eapply Forall_impl; [exact Hcov|].
    exact Hmono. }
  destruct Hstep as [evs|i evs event rest result rows Hi Hrows
                    |i evs dup event rest result Hi n
                    |j now k' Hj Hk|j now event q Hj Hqe
                    |j event now rows s' d' Hj Hrows Hlive' Hrec'
                    |j now event was_new Hj a]; try done.
  - cbn [calls] in *. apply Forall_app. split; [done|]. apply Forall_singleton.
    exists []. by destruct evs.
  - cbn [calls] in *. apply Forall_insert; [done|].
    pose proof (Forall_lookup_1 _ _ _ _ Hcs' Hi) as (done & Hevs & Hcov).
    exists done. split; [done|].
    unfold answered_duplicate in *. cbn [at_] in *.
    rewrite app_nil_r in Hcov.
    destruct (decide (known rows event)) as [Hk|Hk].
    + rewrite bool_decide_eq_true_2 by done.
      apply Forall_app. split; [done|]. apply Forall_singleton.
      left. by exists rows.
    + rewrite bool_decide_eq_false_2 by done. by rewrite app_nil_r.
  - cbn [calls] in *. apply Forall_insert; [done|].
    pose proof (Forall_lookup_1 _ _ _ _ Hcs Hi) as (done & Hevs & Hcov).
    unfold events_of_call, answered_duplicate in Hevs, Hcov. cbn [at_ events] in *.
    exists (done ++ [event]). subst n.
    assert (covered
              {| agg := (next rest (resume_result dup result)
                              (resume_agg dup event (agg sys))).2;
                 disk := disk sys;
                 calls := <[i := {| events := evs;
                                    at_ := (next rest (resume_result dup result)
                                              (resume_agg dup event (agg sys))).1 |}]>
                            (calls sys) |} event) as Hevent.
    { destruct dup.
      - apply Hmono. apply Forall_app in Hcov as [_ Hc].
        by apply Forall_cons in Hc as [Hc _].
      - right; left. destruct rest; project; apply elem_of_app; right; left. }
    assert (Forall (covered
              {| agg := (next rest (resume_result dup result)
                              (resume_agg dup event (agg sys))).2;
                 disk := disk sys;
                 calls := <[i := {| events := evs;
                                    at_ := (next rest (resume_result dup result)
                                              (resume_agg dup event (agg sys))).1 |}]>
                            (calls sys) |}) done) as Hdone.
    { apply Forall_app in Hcov as [Hc _].
      eapply Forall_impl; [exact Hc|]. intros e. apply Hmono. }
    split.
    + rewrite Hevs, <- app_assoc. by destruct rest.
    + assert (answered_duplicate
                {| events := evs;
                   at_ := (next rest (resume_result dup result)
                                (resume_agg dup event (agg sys))).1 |} = []) as ->
        by (by destruct rest).
      rewrite app_nil_r. apply Forall_app. split; [done|].
      by apply Forall_singleton.
Qed.

Lemma step_accounted rows0 sys a sys' :
  step sys a sys' → accounted rows0 sys → accounted rows0 sys'.
Proof.
  intros Hstep Hacc.
  destruct (step_origin _ _ _ rows0 Hstep Hacc) as [Hq Hts].
  split; [by eapply step_rows | done | done | by eapply step_calls |].
  eapply step_received; [done|]. by destruct Hacc.
Qed.

Lemma run_accounted rows0 schedule : ∀ sys sys',
  usable sys → accounted rows0 sys →
  run schedule sys = Some sys' →
  accounted rows0 sys'
  ∧ arguments sys' = arguments sys ++ published schedule.
Proof.
  induction schedule as [|a schedule IH]; intros sys sys' Hu Hacc Hrun.
  - inversion Hrun; subst. split; [done|]. by rewrite app_nil_r.
  - cbn in Hrun. destruct (exec a sys) as [sys1|] eqn:Hexec; [|done].
    cbn in Hrun. apply exec_step in Hexec; [|done].
    destruct (IH sys1 sys') as [Hacc' Hargs];
      [by eapply step_usable | by eapply step_accounted | done |].
    split; [done|].
    rewrite Hargs, (step_arguments_list _ _ _ Hexec), (published_cons a schedule).
    by rewrite app_assoc.
Qed.

Lemma started_accounted rows0 sys :
  started sys → stored sys = Some rows0 → NoDup (key <$> rows0) →
  accounted rows0 sys.
Proof.
  intros (Hcalls & Hq & Hr & Hu & Hd & Hts & _) Hst Hnd.
  split.
  - exists []. rewrite app_nil_r. split_and!; try done.
    rewrite Hu, (total_zero marked_new); [done|].
    eapply Forall_impl; [exact Hts|]. by intros [| | |? []| |].
  - by rewrite Hq.
  - eapply Forall_impl; [exact Hts|]. by intros [| | |? ?| |].
  - by rewrite Hcalls.
  - by rewrite Hr, Hcalls.
Qed.

Lemma total_lengths (cs : list call) :
  total (λ c, Z.of_nat (length (events c))) cs
  = Z.of_nat (length (mjoin (events <$> cs))).
Proof.
  induction cs as [|c cs IH]; [done|].
  change (total (λ c, Z.of_nat (length (events c))) (c :: cs))
    with (Z.of_nat (length (events c))
          + total (λ c, Z.of_nat (length (events c))) cs).
  rewrite IH.
  change (mjoin (events <$> c :: cs))
    with (events c ++ mjoin (events <$> cs)).
  rewrite length_app. lia.
Qed.

(** X19. Exactly-once accounting. The service is started over a store
    that holds [rows0], with pairwise distinct identities. After any
    schedule of publish calls and consumer stretches that leaves the queue
    drained: [received] is the number of events published;
    [unique_processed] is the number of distinct identities published that
    [rows0] did not hold; [duplicate_dropped] is the rest; and the store
    holds [rows0] followed by exactly one record for each of those
    identities. *)
Theorem exactly_once_accounting
    (sys0 : System) (schedule : list action) (sys : System) (rows0 : table) :
  started sys0 → stored sys0 = Some rows0 → NoDup (key <$> rows0) →
  run schedule sys0 = Some sys → drained sys →
  let fresh :=
    new_identities rows0 (Event.identity <$> published schedule) in
  received (stats (agg sys)) = Z.of_nat (length (published schedule))
  ∧ unique_processed (stats (agg sys)) = Z.of_nat (length fresh)
  ∧ duplicate_dropped (stats (agg sys))
    = Z.of_nat (length (published schedule)) - Z.of_nat (length fresh)
  ∧ ∃ more, stored sys = Some (rows0 ++ more) ∧ key <$> more ≡ₚ fresh.
Proof.
  intros Hstart Hst0 Hnd0 Hrun Hdrained fresh.
  pose proof (started_usable _ Hstart) as Hu.
  destruct (run_conserved schedule sys0 sys) as [_ Hc];
    [done | by apply started_conserved | done |].
  destruct (run_accounted rows0 schedule sys0 sys) as [Hacc Hargs];
    [done | by apply started_accounted | done |].
  assert (arguments sys0 = []) as Hargs0.
  { destruct Hstart as (Hcalls0 & _). unfold arguments. by rewrite Hcalls0. }
  rewrite Hargs0 in Hargs. cbn [app] in Hargs.
  destruct (drained_nothing_held sys Hdrained) as (Hq & Hcalls & Htasks).
  unfold conserved in Hc. rewrite Hq, Hcalls, Htasks in Hc. cbn in Hc.
  destruct Hacc as [(more & Hst & Hnd & Huniq & Horigin) _ _ Hcs Hrecv].
  destruct Hdrained as (Hret & _ & Hheld).
  rewrite (total_zero marked_new) in Huniq.
  2:{ eapply Forall_impl; [exact Hheld|]. by intros [| | |? []| |]. }
  rewrite (total_ext consumed (λ c, Z.of_nat (length (events c)))) in Hrecv.
  2:{ eapply Forall_impl; [exact Hret|]. intros [evs st] Hc'.
      unfold returned, consumed in *. cbn in *. destruct st; try done. lia. }
  rewrite total_lengths in Hrecv. fold (arguments sys) in Hrecv.
  rewrite Hargs in Hrecv.
  (* every published event is known to the store *)
  assert (∀ e, e ∈ published schedule → known (rows0 ++ more) e) as Hknown.
  { intros e He. rewrite <- Hargs in He. unfold arguments in He.
    apply list_elem_of_join in He as (evs & He & Hevs).
    apply list_elem_of_fmap in Hevs as (c & -> & Hc').
    pose proof (proj1 (Forall_forall _ _) Hcs c Hc') as (done & Hdone & Hcov).
    pose proof (proj1 (Forall_forall _ _) Hret c Hc') as Hr.
    assert (events_of_call c = []) as Hnone.
    { unfold returned, events_of_call in *. by destruct (at_ c). }
    rewrite Hnone, app_nil_r in Hdone. subst done.
    apply Forall_app in Hcov as [Hcov _].
    pose proof (proj1 (Forall_forall _ _) Hcov e He) as [(rows & Hr1 & Hk)|[Hin|Hm]].
    - rewrite Hst in Hr1. by inversion Hr1; subst.
    - rewrite Hq in Hin. by apply not_elem_of_nil in Hin.
    - by pose proof (proj1 (Forall_forall _ _) Hheld _ Hm). }
  rewrite fmap_app in Hnd. apply NoDup_app in Hnd as (_ & Hdisj & Hndm).
  assert (key <$> more ≡ₚ fresh) as Hperm.
  { apply NoDup_Permutation; [done | apply NoDup_remove_dups |].
    intros k. unfold fresh, new_identities.
    rewrite elem_of_remove_dups, list_elem_of_filter. split.
    - intros Hk. split.
      + intros Hk0. by apply (Hdisj k).
      + apply list_elem_of_fmap in Hk as (r & -> & Hr).
        pose proof (proj1 (Forall_forall _ _) Horigin r Hr) as Ho.
        cbn in Ho. by rewrite Hargs in Ho.
    - intros [Hk0 Hk]. apply list_elem_of_fmap in Hk as (e & -> & He).
      specialize (Hknown e He). apply has_identity_key in Hknown.
      rewrite fmap_app in Hknown. apply elem_of_app in Hknown as [?|?]; done. }
  assert (Z.of_nat (length more) = Z.of_nat (length fresh)) as Hlen.
  { rewrite <- (Permutation_length Hperm). by rewrite length_fmap. }
  split_and!; [lia | lia | lia |]. by exists more.
Qed.

Lemma many_identities_run :
  run ManyIdentities.schedule Scenario.sys0 = Some ManyIdentities.final.
Proof. vm_compute. reflexivity. Qed.

Lemma many_identities_drained : drained ManyIdentities.final.
Proof. vm_compute. split_and!; try done; by repeat constructor. Qed.

Lemma exactly_once_accounting_witness :
  started Scenario.sys0 ∧ stored Scenario.sys0 = Some []
  ∧ NoDup (key <$> ([] : table))
  ∧ run ManyIdentities.schedule Scenario.sys0 = Some ManyIdentities.final
  ∧ drained ManyIdentities.final
  ∧ let fresh :=
      new_identities [] (Event.identity <$> published ManyIdentities.schedule) in
    received (stats (agg ManyIdentities.final))
    = Z.of_nat (length (published ManyIdentities.schedule))
    ∧ unique_processed (stats (agg ManyIdentities.final))
      = Z.of_nat (length fresh)
    ∧ duplicate_dropped (stats (agg ManyIdentities.final))
      = Z.of_nat (length (published ManyIdentities.schedule))
        - Z.of_nat (length fresh)
    ∧ ∃ more, stored ManyIdentities.final = Some ([] ++ more)
              ∧ key <$> more ≡ₚ fresh.
Proof.
  assert (stored Scenario.sys0 = Some []) as Hst by (vm_compute; reflexivity).
  assert (NoDup (key <$> ([] : table))) as Hnd by constructor.
  split; [exact scenario_started|]. split; [exact Hst|]. split; [exact Hnd|].
  split; [exact many_identities_run|]. split; [exact many_identities_drained|].
  exact (exactly_once_accounting Scenario.sys0 ManyIdentities.schedule
           ManyIdentities.final [] scenario_started Hst Hnd
           many_identities_run many_identities_drained).
Defined.

End ExactlyOnce.
